(** * apply_filtered_suggestions.py: filter and placement of suggestions

    A shallow embedding of
    [skills/todolist-md-clawdbot/scripts/apply_filtered_suggestions.py].

    Python [str] values are sequences of Unicode code points and are
    modelled as [list N].  Similarity scores ([SequenceMatcher.ratio],
    a quotient [2*M/T] of two integers) and the two bounds they are
    compared with are modelled as exact rationals: the comparisons of the
    script are between such quotients and the constants 0, 0.2 and the
    threshold, and rounding to a float is monotone.
    The two standard-library services whose full tables are outside the
    script, [str.lower] and [SequenceMatcher.ratio], are variables of the
    section that holds the program; [Difflib] gives an executable model of
    the second one and [ascii_lower] an instance of the first one, so that
    the program can be evaluated on concrete documents. *)

From Stdlib Require Import NArith QArith Lia.
From stdpp Require Import base strings list.

Open Scope N_scope.

(** ** Python strings *)

Module PyStr.

Definition pystr := list N.

(** A source literal: the code points of an ASCII string. *)
Definition py (s : string) : pystr :=
  Ascii.N_of_ascii <$> String.list_ascii_of_string s.

Definition SPACE : N := 32.
Definition LF : N := 10.
Definition CR : N := 13.

(** [str.isspace] on one code point, also the class [\s] of [re] on [str]
    patterns. *)
Definition is_space (c : N) : bool :=
  ((9 <=? c) && (c <=? 13)) || ((28 <=? c) && (c <=? 32)) ||
  (c =? 133) || (c =? 160) || (c =? 5760) ||
  ((8192 <=? c) && (c <=? 8202)) || (c =? 8232) || (c =? 8233) ||
  (c =? 8239) || (c =? 8287) || (c =? 12288).

(** The line boundaries of [str.splitlines]. *)
Definition is_linebreak (c : N) : bool :=
  ((10 <=? c) && (c <=? 13)) || ((28 <=? c) && (c <=? 30)) ||
  (c =? 133) || (c =? 8232) || (c =? 8233).

(** [s.startswith(p)] *)
Fixpoint startswith (p s : pystr) : bool :=
  match p, s with
  | [], _ => true
  | _ :: _, [] => false
  | a :: p', b :: s' => (a =? b) && startswith p' s'
  end.

(** [p in s] *)
Fixpoint contains (p s : pystr) : bool :=
  startswith p s ||
  match s with
  | [] => false
  | _ :: s' => contains p s'
  end.

(** [s.endswith(p)] *)
Definition endswith (p s : pystr) : bool :=
  startswith (reverse p) (reverse s).

(** [s.lstrip()], [s.rstrip()], [s.strip()] *)
Fixpoint lstrip (s : pystr) : pystr :=
  match s with
  | [] => []
  | c :: r => if is_space c then lstrip r else s
  end.

Fixpoint rstrip (s : pystr) : pystr :=
  match s with
  | [] => []
  | c :: r =>
      match rstrip r with
      | [] => if is_space c then [] else [c]
      | r' => c :: r'
      end
  end.

Definition strip (s : pystr) : pystr := rstrip (lstrip s).

(** [sep.join(parts)] *)
Fixpoint join (sep : pystr) (parts : list pystr) : pystr :=
  match parts with
  | [] => []
  | [p] => p
  | p :: ps => p ++ sep ++ join sep ps
  end.

(** [s.split(sep)] for a one-character separator: the fields between the
    separators, empty ones included; never the empty list. *)
Fixpoint split_on (sep : N) (s : pystr) : list pystr :=
  match s with
  | [] => [[]]
  | c :: r =>
      if c =? sep then [] :: split_on sep r
      else
        match split_on sep r with
        | [] => [[c]]
        | f :: fs => (c :: f) :: fs
        end
  end.

(** [s.split()]: the maximal runs of characters that are not whitespace. *)
Fixpoint fields (s : pystr) : list pystr :=
  match s with
  | [] => []
  | c :: r =>
      if is_space c then fields r
      else
        match r with
        | [] => [[c]]
        | d :: _ =>
            if is_space d then [c] :: fields r
            else
              match fields r with
              | [] => [[c]]
              | w :: ws => (c :: w) :: ws
              end
        end
  end.

(** [s.splitlines()]: lines without their terminators; CR LF is one
    terminator; no empty last line after a final terminator. *)
Fixpoint splitlines_aux (cur : pystr) (s : pystr) : list pystr :=
  match s with
  | [] => match cur with [] => [] | _ => [reverse cur] end
  | c :: r =>
      if is_linebreak c then
        match r with
        | d :: r' =>
            if (c =? CR) && (d =? LF)
            then reverse cur :: splitlines_aux [] r'
            else reverse cur :: splitlines_aux [] r
        | [] => [reverse cur]
        end
      else splitlines_aux (c :: cur) r
  end.

Definition splitlines (s : pystr) : list pystr := splitlines_aux [] s.

(** [re.sub(r'\s+', ' ', s)]: every maximal run of whitespace becomes one
    space.  [in_run] tells that the previous character was whitespace. *)
Fixpoint sub_ws_runs_aux (in_run : bool) (s : pystr) : pystr :=
  match s with
  | [] => []
  | c :: r =>
      if is_space c then
        if in_run then sub_ws_runs_aux true r
        else SPACE :: sub_ws_runs_aux true r
      else c :: sub_ws_runs_aux false r
  end.

Definition sub_ws_runs (s : pystr) : pystr := sub_ws_runs_aux false s.

(** The class [[a-z0-9 ]]. *)
Definition is_lower_alnum_space (c : N) : bool :=
  ((97 <=? c) && (c <=? 122)) || ((48 <=? c) && (c <=? 57)) || (c =? SPACE).

(** [re.sub(r'[^a-z0-9 ]', ' ', s)] *)
Definition sub_non_alnum (s : pystr) : pystr :=
  (λ c, if is_lower_alnum_space c then c else SPACE) <$> s.

(** ASCII lowercasing of one code point; other code points are kept. *)
Definition ascii_lower_cp (c : N) : N :=
  if (65 <=? c) && (c <=? 90) then c + 32 else c.

Definition ascii_lower (s : pystr) : pystr := ascii_lower_cp <$> s.

Definition is_ascii (c : N) : bool := c <? 128.

(** A word: not empty and free of whitespace. *)
Definition word (w : pystr) : Prop :=
  w ≠ [] ∧ Forall (λ c, is_space c = false) w.

(** A text that does not end with a line feed, and is not empty. *)
Definition ends_clean (s : pystr) : Prop := ∃ c, last s = Some c ∧ c ≠ LF.

(** An array of lines whose last line, if there is one, is such a text. *)
Definition last_clean (ls : list pystr) : Prop :=
  ∀ l, last ls = Some l → ends_clean l.

End PyStr.
Export PyStr.

(** ** difflib.SequenceMatcher(None, a, b).ratio()

    An executable model of CPython's [difflib]: [isjunk] is [None], so the
    junk set is empty, and [autojunk] is on, so in a second sequence of 200
    or more elements the elements that occur more than [n // 100 + 1] times
    are left out of the index [b2j]. *)

Module Difflib.

Definition count_of (c : N) (b : pystr) : nat :=
  length (filter (λ d, d = c) b).

Definition is_popular (b : pystr) (c : N) : bool :=
  (200 <=? length b)%nat && (length b / 100 + 1 <? count_of c b)%nat.

Definition same_at (a b : pystr) (i j : nat) : bool :=
  match a !! i, b !! j with
  | Some x, Some y => x =? y
  | _, _ => false
  end.

(** One pass of the inner loop of [find_longest_match]: [row] is [j2len]
    as a dense list ([0] where the dictionary has no entry), the result is
    [newj2len] for the element [ai] of the first sequence. *)
Definition next_row (b : pystr) (blo bhi : nat) (ai : N) (row : list nat)
  : list nat :=
  imap (λ j '(bj, prev),
          if (bj =? ai) && negb (is_popular b bj) &&
             (blo <=? j)%nat && (j <? bhi)%nat
          then S prev else O)
       (zip b (O :: row)).

(** [if k > bestsize: besti, bestj, bestsize = i-k+1, j-k+1, k], for the
    entries of [newj2len] by increasing [j]. *)
Fixpoint scan_row (i j : nat) (row : list nat) (best : nat * nat * nat)
  : nat * nat * nat :=
  match row with
  | [] => best
  | k :: row' =>
      let '(_, _, bestsize) := best in
      scan_row i (S j) row'
        (if (bestsize <? k)%nat then ((i + 1 - k)%nat, (j + 1 - k)%nat, k)
         else best)
  end.

Fixpoint longest_from (a b : pystr) (blo bhi : nat) (i : nat) (ai_s : pystr)
    (row : list nat) (best : nat * nat * nat) : nat * nat * nat :=
  match ai_s with
  | [] => best
  | ai :: rest =>
      let row' := next_row b blo bhi ai row in
      longest_from a b blo bhi (S i) rest row' (scan_row i 0 row' best)
  end.

(** The two loops that extend the match by elements that are not junk. *)
Fixpoint extend_left (fuel : nat) (a b : pystr) (alo blo : nat)
    (best : nat * nat * nat) : nat * nat * nat :=
  let '(besti, bestj, bestsize) := best in
  match fuel with
  | O => best
  | S fuel' =>
      if (alo <? besti)%nat && (blo <? bestj)%nat &&
         same_at a b (besti - 1) (bestj - 1)
      then extend_left fuel' a b alo blo
             ((besti - 1)%nat, (bestj - 1)%nat, S bestsize)
      else best
  end.

Fixpoint extend_right (fuel : nat) (a b : pystr) (ahi bhi : nat)
    (best : nat * nat * nat) : nat * nat * nat :=
  let '(besti, bestj, bestsize) := best in
  match fuel with
  | O => best
  | S fuel' =>
      if (besti + bestsize <? ahi)%nat && (bestj + bestsize <? bhi)%nat &&
         same_at a b (besti + bestsize) (bestj + bestsize)
      then extend_right fuel' a b ahi bhi (besti, bestj, S bestsize)
      else best
  end.

Definition find_longest_match (a b : pystr) (alo ahi blo bhi : nat)
  : nat * nat * nat :=
  let best0 := (alo, blo, O) in
  let best1 :=
    longest_from a b blo bhi alo (take (ahi - alo) (drop alo a))
      (replicate (length b) O) best0 in
  let best2 := extend_left (length a) a b alo blo best1 in
  extend_right (length a) a b ahi bhi best2.

(** The work list of [get_matching_blocks]; only the sum of the sizes of
    the blocks is kept, which is what [ratio] reads. *)
Fixpoint matches (fuel : nat) (a b : pystr)
    (queue : list (nat * nat * nat * nat)) (acc : nat) : nat :=
  match fuel with
  | O => acc
  | S fuel' =>
      match queue with
      | [] => acc
      | (alo, ahi, blo, bhi) :: queue' =>
          let '(i, j, k) := find_longest_match a b alo ahi blo bhi in
          match k with
          | O => matches fuel' a b queue' acc
          | S _ =>
              let q1 := if (alo <? i)%nat && (blo <? j)%nat
                        then (alo, i, blo, j) :: queue' else queue' in
              let q2 := if (i + k <? ahi)%nat && (j + k <? bhi)%nat
                        then ((i + k)%nat, ahi, (j + k)%nat, bhi) :: q1
                        else q1 in
              matches fuel' a b q2 (acc + k)%nat
          end
      end
  end.

(** [_calculate_ratio(matches, len(a) + len(b))] *)
Definition ratio (a b : pystr) : Q :=
  let total := (length a + length b)%nat in
  match total with
  | O => 1%Q
  | S _ =>
      let m := matches (S (2 * total)) a b [(O, length a, O, length b)] O in
      Qmake (Z.of_nat (2 * m)) (Pos.of_nat total)
  end.

End Difflib.

(** ** json.dumps(obj, ensure_ascii=False) for the marker object *)

Module Json.

Definition QUOTE : N := 34.
Definition BACKSLASH : N := 92.

(** One lowercase hexadecimal digit. *)
Definition hex_digit (n : N) : N := if n <? 10 then 48 + n else 87 + n.

(** [ESCAPE_DCT] of [json.encoder]: the quote, the backslash and the
    control characters below U+0020; every other code point is kept. *)
Definition escape_cp (c : N) : pystr :=
  if c =? QUOTE then [BACKSLASH; QUOTE]
  else if c =? BACKSLASH then [BACKSLASH; BACKSLASH]
  else if c =? 8 then py "\b"
  else if c =? 12 then py "\f"
  else if c =? 10 then py "\n"
  else if c =? 13 then py "\r"
  else if c =? 9 then py "\t"
  else if c <? 32 then py "\u00" ++ [hex_digit (c / 16); hex_digit (c mod 16)]
  else [c].

Definition dumps_str (s : pystr) : pystr :=
  [QUOTE] ++ concat (escape_cp <$> s) ++ [QUOTE].

Definition dumps_opt_str (s : option pystr) : pystr :=
  match s with
  | None => py "null"
  | Some s => dumps_str s
  end.

(** A dictionary with string keys, in insertion order, the values already
    serialized: the separators are [", "] and [": "]. *)
Definition dumps_member (kv : pystr * pystr) : pystr :=
  dumps_str kv.1 ++ py ": " ++ kv.2.

Definition dumps_dict (members : list (pystr * pystr)) : pystr :=
  py "{" ++ join (py ", ") (dumps_member <$> members) ++ py "}".

End Json.

(** ** The data of a run *)

Record suggestion := Suggestion {
  original : option pystr;       (* it.get('original') *)
  suggested_text : pystr         (* it.get('suggested_text','') *)
}.

(** The three values of [decision]; ['insert'] is [insert_] here, next to
    the [insert] of the list library. *)
Inductive decision := insert_ | skip_similar | skip_not_actionable.

(** One entry of [records]. *)
Record record := Record_ {
  rec_original : option pystr;
  rec_title : pystr;
  rec_similarity : Q;
  rec_actionable : bool;
  rec_decision : decision
}.

(** What the run reads from outside: the command line, the suggestions
    file, the downloaded document, and what [uuid.uuid4()] and
    [datetime.utcnow()] answer.  [uuid4_hex k] and [utcnow_iso k] are the
    answers while suggestion number [k] of the batch is processed,
    [review_iso] the answer when the header line is built. *)
Record inputs := Inputs {
  threshold_arg : option Q;           (* --threshold, when given *)
  schema : option pystr;              (* sugg.get('schema') *)
  generatedAtUtc : pystr;             (* sugg.get("generatedAtUtc","") *)
  items : list suggestion;            (* fs['suggestions'] *)
  content : pystr;                    (* the downloaded text *)
  uuid4_hex : nat → pystr;
  utcnow_iso : nat → pystr;
  review_iso : pystr
}.

(** The variables of the loop of [main]. *)
Record state := State {
  new_lines : list pystr;
  offset : nat;
  inserted : nat;
  records : list record
}.

Record output := Output {
  out_lines : list pystr;             (* new_lines after the header step *)
  new_content : pystr;
  out_inserted : nat;
  out_records : list record
}.

Definition THRESHOLD : Q := 85 # 100.
Definition MATCH_FLOOR : Q := 2 # 10.

Definition ACTION_VERBS : list pystr :=
  [py "create"; py "implement"; py "open"; py "contact"; py "draft";
   py "request"; py "schedule"; py "setup"; py "configure"; py "test";
   py "verify"; py "follow"].

Definition LAST_REVIEW_PREFIX : pystr := py "<!-- bot: last_review".

(** [l.insert(i, x)] for [0 <= i]: past the end it appends. *)
Definition list_insert_at {A} (i : nat) (x : A) (l : list A) : list A :=
  take i l ++ x :: drop i l.

(** [l[lo:hi]] for [0 <= lo] and [0 <= hi]. *)
Definition slice {A} (lo hi : nat) (l : list A) : list A :=
  take (hi - lo) (drop lo l).

(** [args.threshold]: the flag, or its default. *)
Definition threshold (inp : inputs) : Q := default THRESHOLD (threshold_arg inp).

(** ** The program *)

Section Program.

(** [str.lower] and [SequenceMatcher(None, a, b).ratio()]. *)
Variable lower : pystr → pystr.
Variable ratio : pystr → pystr → Q.

Definition normalize (s : option pystr) : pystr :=
  strip (sub_ws_runs (sub_non_alnum (lower (default [] s)))).

(** The normalizer in the words of its description: the words of the
    lowercased text, in which every character outside [[a-z0-9 ]] counts as
    a space, joined by single spaces. *)
Definition normalize_spec (s : option pystr) : pystr :=
  join [SPACE] (fields (sub_non_alnum (lower (default [] s)))).

Definition is_actionable (title : pystr) : bool :=
  let t := normalize (Some title) in
  existsb (λ v,
             startswith (v ++ [SPACE]) t ||
             contains ([SPACE] ++ v ++ [SPACE]) ([SPACE] ++ t ++ [SPACE]))
          ACTION_VERBS.

(** [re.sub(r'^\- \[ \]\s*', '', suggested)] *)
Definition strip_checkbox (suggested : pystr) : pystr :=
  if startswith (py "- [ ]") suggested then lstrip (drop 5 suggested)
  else suggested.

(** [re.sub(...).split('\n')[0]] *)
Definition extract_title (suggested : pystr) : pystr :=
  hd [] (split_on LF (strip_checkbox suggested)).

Definition similarity (orig : option pystr) (title : pystr) : Q :=
  ratio (normalize orig) (normalize (Some title)).

(** [decision='insert'], then the [if sim>=args.threshold ... elif not
    actionable ...] that overwrites it. *)
Definition decide_ (thr : Q) (sim : Q) (actionable : bool) : decision :=
  if Qle_bool thr sim then skip_similar
  else if negb actionable then skip_not_actionable
  else insert_.

Definition record_of (thr : Q) (it : suggestion) : record :=
  let title := extract_title (suggested_text it) in
  let sim := similarity (original it) title in
  let actionable := is_actionable title in
  Record_ (original it) title sim actionable (decide_ thr sim actionable).

(** The scan for the best matching line. *)
Fixpoint best_match_from (orig : option pystr) (idx : nat)
    (lines : list pystr) (best_idx : option nat) (best_score : Q)
  : option nat * Q :=
  match lines with
  | [] => (best_idx, best_score)
  | ln :: rest =>
      let score := ratio (normalize orig) (normalize (Some ln)) in
      if Qlt_le_dec best_score score
      then best_match_from orig (S idx) rest (Some idx) score
      else best_match_from orig (S idx) rest best_idx best_score
  end.

Definition best_match (orig : option pystr) (lines : list pystr)
  : option nat * Q :=
  best_match_from orig 0 lines None 0%Q.

Definition human_note (title : pystr) : pystr :=
  py "  > <!-- bot: note --> " ++ title.

Definition marker_obj (inp : inputs) (k : nat) (orig : option pystr)
    (title : pystr) : list (pystr * pystr) :=
  [(py "id", Json.dumps_str (py "sub:" ++ take 8 (uuid4_hex inp k)));
   (py "original_line", Json.dumps_opt_str orig);
   (py "title", Json.dumps_str title);
   (py "estimate_hours", py "null");
   (py "assignee", py "null");
   (py "createdAtUtc", Json.dumps_str (utcnow_iso inp k ++ py "Z"));
   (py "source_model", Json.dumps_str (default (py "gpt-5-mini") (schema inp)));
   (py "status", Json.dumps_str (py "suggested"))].

Definition machine_comment (inp : inputs) (k : nat) (orig : option pystr)
    (title : pystr) : pystr :=
  py "<!-- bot: subtask " ++ Json.dumps_dict (marker_obj inp k orig title)
    ++ py " -->".

Definition window_of (idx : nat) (ls : list pystr) : list pystr :=
  slice (idx - 2) (min (length ls) (idx + 3)) ls.

(** Is the note or the marker already among the lines around [idx]? *)
Definition already_there (note marker : pystr) (window : list pystr) : bool :=
  contains (strip note) (join [LF] window) ||
  contains marker (join [LF] window).

(** The part of the loop body after [records.append]. *)
Definition place (inp : inputs) (lines : list pystr) (k : nat)
    (it : suggestion) (st : state) : state :=
  let orig := original it in
  let title := extract_title (suggested_text it) in
  match best_match orig lines with
  | (None, _) => st
  | (Some best_idx, best_score) =>
      if Qlt_le_dec best_score MATCH_FLOOR then st
      else
        let note := human_note title in
        let marker := machine_comment inp k orig title in
        let idx := (best_idx + 1 + offset st)%nat in
        if already_there note marker (window_of idx (new_lines st)) then st
        else
          State (list_insert_at (idx + 1) marker
                   (list_insert_at idx note (new_lines st)))
                (offset st + 2) (inserted st + 1) (records st)
  end.

(** One turn of [for it in items]. *)
Definition step (inp : inputs) (lines : list pystr) (k : nat)
    (it : suggestion) (st : state) : state :=
  let r := record_of (threshold inp) it in
  let st1 := State (new_lines st) (offset st) (inserted st)
                   (records st ++ [r]) in
  match rec_decision r with
  | insert_ => place inp lines k it st1
  | _ => st1
  end.

Fixpoint loop (inp : inputs) (lines : list pystr) (k : nat)
    (its : list suggestion) (st : state) : state :=
  match its with
  | [] => st
  | it :: rest => loop inp lines (S k) rest (step inp lines k it st)
  end.

Definition init (lines : list pystr) : state := State lines 0 0 [].

Definition last_line (inp : inputs) : pystr :=
  py "<!-- bot: last_review --> " ++ review_iso inp ++
  py "Z model=gpt-5-mini hash=" ++ generatedAtUtc inp.

(** The header step: it reads and writes [new_lines] only. *)
Definition update_last_review (hdr : pystr) (ls : list pystr) : list pystr :=
  match ls with
  | l0 :: _ =>
      if startswith LAST_REVIEW_PREFIX l0 then <[0%nat := hdr]> ls
      else list_insert_at 0 hdr ls
  | [] => list_insert_at 0 hdr ls
  end.

Definition serialize (text : pystr) (ls : list pystr) : pystr :=
  join [LF] ls ++ (if endswith [LF] text then [LF] else []).

Definition main (inp : inputs) : output :=
  let lines := splitlines (content inp) in
  let st := loop inp lines 0 (items inp) (init lines) in
  let final := update_last_review (last_line inp) (new_lines st) in
  Output final (serialize (content inp) final) (inserted st) (records st).

(** The score of a line of the document against the original. *)
Definition score_of (orig : option pystr) (ln : pystr) : Q :=
  ratio (normalize orig) (normalize (Some ln)).

(** What the scan knows after the lines [seen]. *)
Definition scanned (orig : option pystr) (seen : list pystr)
    (best : option nat * Q) : Prop :=
  (∀ j ln, seen !! j = Some ln → (score_of orig ln <= best.2)%Q) ∧
  match best.1 with
  | None => best.2 = 0%Q
  | Some i =>
      (0 < best.2)%Q ∧
      (∃ ln, seen !! i = Some ln ∧ best.2 = score_of orig ln) ∧
      (∀ j ln, (j < i)%nat → seen !! j = Some ln →
               (score_of orig ln < best.2)%Q)
  end.

(** What holds of the loop variables at every turn: the array has grown by
    [offset] lines, two per insertion, and the lines of the document are
    still there, in their order, the first one still first. *)
Definition loop_inv (lines : list pystr) (st : state) : Prop :=
  length (new_lines st) = (length lines + offset st)%nat ∧
  offset st = (2 * inserted st)%nat ∧
  head (new_lines st) = head lines ∧
  sublist lines (new_lines st) ∧
  sublist (tail lines) (tail (new_lines st)).

(** The lines of the document that the run keeps: all of them, but for a
    first line that is an old header. *)
Definition kept_lines (lines : list pystr) : list pystr :=
  match lines with
  | l0 :: rest => if startswith LAST_REVIEW_PREFIX l0 then rest else lines
  | [] => []
  end.

End Program.

(** ** Concrete runs

    The program at [ascii_lower] and [Difflib.ratio], on a small document
    and a batch of three suggestions. *)

Module Demo.

Definition uuid (k : nat) : pystr :=
  rotate k (py "0123456789abcdef0123456789abcdef").

Definition clock (k : nat) : pystr := py "2026-01-02T03:04:05.000006".

Definition buy_milk : suggestion :=
  Suggestion (Some (py "Buy milk")) (py "- [ ] Buy milk").

Definition retro : suggestion :=
  Suggestion (Some (py "Team standup notes"))
             (py "- [ ] Create retro action plan").

Definition budget : suggestion :=
  Suggestion (Some (py "Quarterly budget review"))
             (py "- [ ] Schedule meeting with finance").

Definition document : pystr :=
  py "# Todo
- [ ] Buy milk
- [ ] Team standup notes
- [ ] Call the bank
- [ ] Water plants
- [ ] Quarterly budget review
- [ ] Fix bike
".

(** A suggestion whose original resembles no line at all, and one whose
    original resembles one line only faintly. *)
Definition orphan : suggestion :=
  Suggestion (Some (py "jjj")) (py "- [ ] Schedule jjj").

Definition faint : suggestion :=
  Suggestion (Some (py "q")) (py "- [ ] Schedule q").

Definition run (text : pystr) : inputs :=
  Inputs None None (py "2026-01-01T00:00:00Z") [buy_milk; retro; budget]
         text uuid clock (py "2026-01-02T03:04:06.000007").

Definition first_run : inputs := run document.

(** The text that the first run sends, and a run on that text. *)
Definition annotated : pystr :=
  Eval vm_compute in new_content (main ascii_lower Difflib.ratio first_run).

Definition second_run : inputs := run annotated.

End Demo.

(** ** What the facts below count and compare *)

(** The records whose decision is ['insert']. *)
Definition is_insert (r : record) : bool :=
  match rec_decision r with
  | insert_ => true
  | _ => false
  end.

Definition count_inserts (rs : list record) : nat :=
  length (List.filter is_insert rs).

(** From the line after the line [b] of the document on, the array is the
    document, for every [b] from [w] on. *)
Definition tail_inv (lines : list pystr) (w : nat) (st : state) : Prop :=
  ∀ b, (w ≤ b)%nat →
       drop (b + 1 + offset st) (new_lines st) = drop (b + 1) lines.

(** No character below U+0020. *)
Definition no_control (s : pystr) : bool := forallb (λ c, 32 <=? c) s.

(** More runs: on an empty text; with one suggestion that is skipped; with
    a suggestion whose title has no letter; on a text that already holds a
    note with a longer title. *)
Module Cases.

Definition empty_run : inputs := Demo.run [].

Definition quiet_run : inputs :=
  Inputs None None (py "2026-01-01T00:00:00Z") [Demo.buy_milk]
         Demo.document Demo.uuid Demo.clock (py "2026-01-02T03:04:06.000007").

Definition blank : suggestion :=
  Suggestion (Some (py "Team standup notes")) (py "- [ ] ???").

Definition noted : pystr :=
  py "# Todo
- [ ] Team standup notes
  > <!-- bot: note --> Create retro action plan for Q3
- [ ] Fix bike
".

Definition noted_run : inputs := Demo.run noted.

(** A text without a line feed at its end, and two texts that end with a
    carriage return. *)
Definition unterminated_run : inputs :=
  Demo.run (py "# Todo" ++ [LF] ++ py "- [ ] Team standup notes").

Definition cr_run : inputs := Demo.run [CR].

Definition lf_cr_run : inputs := Demo.run (py "a" ++ [LF; CR]).

End Cases.

(** ** Facts about the string operations *)

Section StringFacts.

Lemma startswith_spec (p s : pystr) :
  startswith p s = true ↔ ∃ r, s = p ++ r.
Proof.
  revert s. induction p as [|a p IH]; intros s; simpl.
  - split; [intros _; by exists s | done].
  - destruct s as [|b s]; simpl.
    + split; [done | intros [r Hr]; discriminate].
    + rewrite andb_true_iff, N.eqb_eq, IH. split.
      * intros [-> [r ->]]. by exists r.
      * intros [r Hr]. injection Hr as -> ->. eauto.
Qed.

Lemma contains_spec (p s : pystr) :
  contains p s = true ↔ ∃ l r, s = l ++ p ++ r.
Proof.
  induction s as [|c s IH]; simpl.
  - rewrite orb_false_r, startswith_spec. split.
    + intros [r Hr]. by exists [], r.
    + intros (l & r & H). destruct l; [by exists r | discriminate].
  - rewrite orb_true_iff, startswith_spec, IH. split.
    + intros [[r Hr] | (l & r & ->)]; [by exists [], r | by exists (c :: l), r].
    + intros (l & r & H). destruct l as [|d l]; simpl in H.
      * left. by exists r.
      * right. injection H as -> ->. by exists l, r.
Qed.

Lemma contains_app (p l s r : pystr) :
  contains p s = true → contains p (l ++ s ++ r) = true.
Proof.
  rewrite !contains_spec. intros (l' & r' & ->).
  exists (l ++ l'), (r' ++ r). by rewrite <- !app_assoc.
Qed.

(** A text that occurs in one of the parts occurs in the joined text. *)
Lemma contains_join (p sep x : pystr) (parts : list pystr) :
  x ∈ parts → contains p x = true → contains p (join sep parts) = true.
Proof.
  intros Hin Hc. induction parts as [|y ys IH]; [by apply elem_of_nil in Hin|].
  apply elem_of_cons in Hin. destruct ys as [|z zs].
  - destruct Hin as [-> | Hin]; [done | by apply elem_of_nil in Hin].
  - change (join sep (y :: z :: zs)) with (y ++ sep ++ join sep (z :: zs)).
    destruct Hin as [<- | Hin].
    + by apply (contains_app p [] x).
    + rewrite app_assoc. rewrite <- (app_nil_r (join sep (z :: zs))).
      apply contains_app. by apply IH.
Qed.

Lemma endswith_spec (p s : pystr) :
  endswith p s = true ↔ ∃ l, s = l ++ p.
Proof.
  unfold endswith. rewrite startswith_spec. split.
  - intros [r Hr]. exists (reverse r).
    apply (inj reverse). by rewrite reverse_app, reverse_involutive.
  - intros [l ->]. exists (reverse l). by rewrite reverse_app.
Qed.

Lemma fields_word (s : pystr) : Forall word (fields s).
Proof.
  induction s as [|c r IH]; simpl; [constructor|].
  destruct (is_space c) eqn:Hc; [done|].
  destruct r as [|d r']; [repeat constructor; done|].
  destruct (is_space d) eqn:Hd.
  - constructor; [split; [done | by repeat constructor] | done].
  - destruct (fields (d :: r')) as [|w ws]; [repeat constructor; done|].
    apply Forall_cons in IH as [[_ Hw] Hws].
    constructor; [split; [done | by constructor] | done].
Qed.

Lemma join_nil_word (ws : list pystr) :
  Forall word ws → join [SPACE] ws = [] → ws = [].
Proof.
  destruct ws as [|w ws]; [done|]. intros Hw Hj.
  apply Forall_cons in Hw as [[Hne _] _].
  destruct ws; simpl in Hj; [done|]. by apply app_eq_nil in Hj as [? _].
Qed.

Lemma join_cons_char (sep : pystr) (c : N) (w : pystr) (ws : list pystr) :
  join sep ((c :: w) :: ws) = c :: join sep (w :: ws).
Proof. by destruct ws. Qed.

Lemma rstrip_cons_word_char (c : N) (s : pystr) :
  is_space c = false → rstrip (c :: s) = c :: rstrip s.
Proof. intros Hc. simpl. rewrite Hc. by destruct (rstrip s). Qed.

(** What the trimmed right end of [re.sub(r'\s+', ' ', s)] is, in a run
    of whitespace and outside of one. *)
Lemma rstrip_sub_ws_runs (s : pystr) :
  rstrip (sub_ws_runs_aux true s) = join [SPACE] (fields s) ∧
  rstrip (sub_ws_runs_aux false s) =
    match s with
    | [] => []
    | c :: _ =>
        if is_space c
        then match join [SPACE] (fields s) with [] => [] | j => SPACE :: j end
        else join [SPACE] (fields s)
    end.
Proof.
  induction s as [|c r [IHt IHf]]; [done|].
  cbn [sub_ws_runs_aux fields]. destruct (is_space c) eqn:Hc.
  - split; [done|]. cbn [rstrip]. rewrite IHt.
    by destruct (join [SPACE] (fields r)).
  - rewrite (rstrip_cons_word_char _ _ Hc), IHf.
    destruct r as [|d r']; [done|].
    destruct (is_space d) eqn:Hd.
    + pose proof (fields_word (d :: r')) as Hw.
      destruct (fields (d :: r')) as [|w ws] eqn:Hf; [done|].
      change (join [SPACE] ([c] :: w :: ws))
        with (c :: SPACE :: join [SPACE] (w :: ws)).
      destruct (join [SPACE] (w :: ws)) eqn:Hj; [|done].
      by apply join_nil_word in Hj.
    + destruct (fields (d :: r')) as [|w ws]; [done|].
      by rewrite join_cons_char.
Qed.

Lemma lstrip_sub_ws_runs (b : bool) (s : pystr) :
  lstrip (sub_ws_runs_aux b s) = sub_ws_runs_aux false (lstrip s).
Proof.
  revert b. induction s as [|c r IH]; intros b; [done|].
  cbn [sub_ws_runs_aux lstrip]. destruct (is_space c) eqn:Hc.
  - destruct b; [apply IH|]. cbn [lstrip].
    change (is_space SPACE) with true. cbn iota. apply IH.
  - cbn [lstrip sub_ws_runs_aux]. by rewrite Hc.
Qed.

Lemma fields_lstrip (s : pystr) : fields (lstrip s) = fields s.
Proof.
  induction s as [|c r IH]; [done|]. cbn [lstrip].
  destruct (is_space c) eqn:Hc; [|done]. rewrite IH. simpl. by rewrite Hc.
Qed.

(** Collapsing the runs of whitespace and trimming is [' '.join(s.split())]. *)
Lemma strip_sub_ws_runs (s : pystr) :
  strip (sub_ws_runs s) = join [SPACE] (fields s).
Proof.
  unfold strip, sub_ws_runs. rewrite lstrip_sub_ws_runs.
  destruct (rstrip_sub_ws_runs (lstrip s)) as [_ ->].
  rewrite fields_lstrip.
  assert (match lstrip s with
          | [] => True | c :: _ => is_space c = false end) as Hhd.
  { induction s as [|c r IH]; [done|]. cbn [lstrip].
    destruct (is_space c) eqn:Hc; [done|]. by rewrite Hc. }
  destruct (lstrip s) as [|c r] eqn:Hl.
  - rewrite <- fields_lstrip, Hl. done.
  - by rewrite Hhd.
Qed.

Lemma fields_word_app (w t : pystr) :
  word w → fields (w ++ SPACE :: t) = w :: fields t.
Proof.
  intros [Hne Hw]. induction w as [|c w IH]; [done|].
  apply Forall_cons in Hw as [Hc Hw]. destruct w as [|c' w'].
  - simpl. rewrite Hc. by change (is_space SPACE) with true.
  - pose proof Hw as Hw'. apply Forall_cons in Hw' as [Hc' _].
    change (fields ((c :: c' :: w') ++ SPACE :: t))
      with (if is_space c then fields ((c' :: w') ++ SPACE :: t)
            else if is_space c' then [c] :: fields ((c' :: w') ++ SPACE :: t)
            else match fields ((c' :: w') ++ SPACE :: t) with
                 | [] => [[c]] | x :: xs => (c :: x) :: xs end).
    rewrite Hc, Hc', IH; done.
Qed.

Lemma fields_word_single (w : pystr) : word w → fields w = [w].
Proof.
  intros [Hne Hw]. induction w as [|c w IH]; [done|].
  apply Forall_cons in Hw as [Hc Hw]. destruct w as [|c' w'].
  - simpl. by rewrite Hc.
  - pose proof Hw as Hw'. apply Forall_cons in Hw' as [Hc' _].
    change (fields (c :: c' :: w'))
      with (if is_space c then fields (c' :: w')
            else if is_space c' then [c] :: fields (c' :: w')
            else match fields (c' :: w') with
                 | [] => [[c]] | x :: xs => (c :: x) :: xs end).
    rewrite Hc, Hc', IH; done.
Qed.

Lemma fields_join (ws : list pystr) :
  Forall word ws → fields (join [SPACE] ws) = ws.
Proof.
  induction ws as [|w ws IH]; [done|]. intros Hw.
  apply Forall_cons in Hw as [Hw Hws]. destruct ws as [|w' ws'].
  - by apply fields_word_single.
  - change (join [SPACE] (w :: w' :: ws'))
      with (w ++ SPACE :: join [SPACE] (w' :: ws')).
    rewrite fields_word_app by done. by rewrite IH.
Qed.

Lemma fields_chars (P : N → Prop) (s : pystr) :
  Forall P s → Forall (Forall P) (fields s).
Proof.
  induction s as [|c r IH]; intros H; simpl; [constructor|].
  apply Forall_cons in H as [Hc Hr]. specialize (IH Hr).
  destruct (is_space c); [done|].
  destruct r as [|d r']; [by repeat constructor|].
  destruct (is_space d); [by repeat constructor|].
  destruct (fields (d :: r')) as [|w ws]; [by repeat constructor|].
  apply Forall_cons in IH as [? ?]. by repeat constructor.
Qed.

Lemma join_chars (P : N → Prop) (sep : pystr) (ws : list pystr) :
  Forall P sep → Forall (Forall P) ws → Forall P (join sep ws).
Proof.
  intros Hsep. induction ws as [|w ws IH]; intros H; [constructor|].
  apply Forall_cons in H as [Hw Hws]. destruct ws as [|w' ws']; [done|].
  change (join sep (w :: w' :: ws')) with (w ++ sep ++ join sep (w' :: ws')).
  rewrite !Forall_app. auto.
Qed.

Lemma sub_non_alnum_chars (s : pystr) :
  Forall (λ c, is_lower_alnum_space c = true) (sub_non_alnum s).
Proof.
  unfold sub_non_alnum. apply Forall_fmap, Forall_forall. intros c _. simpl.
  by destruct (is_lower_alnum_space c) eqn:Hc.
Qed.

Lemma sub_non_alnum_fixed (s : pystr) :
  Forall (λ c, is_lower_alnum_space c = true) s → sub_non_alnum s = s.
Proof.
  unfold sub_non_alnum. induction 1 as [|c s Hc _ IH]; [done|].
  csimpl. by rewrite Hc, IH.
Qed.

Lemma lower_alnum_space_ascii (c : N) :
  is_lower_alnum_space c = true → is_ascii c = true ∧ ascii_lower_cp c = c.
Proof.
  unfold is_lower_alnum_space, is_ascii, ascii_lower_cp, SPACE.
  rewrite !orb_true_iff, !andb_true_iff, !N.leb_le, N.eqb_eq, N.ltb_lt.
  intros H. split; [lia|].
  destruct ((65 <=? c) && (c <=? 90)) eqn:Hu; [|done].
  apply andb_true_iff in Hu as [?%N.leb_le ?%N.leb_le]. lia.
Qed.

Lemma ascii_lower_fixed (s : pystr) :
  Forall (λ c, is_lower_alnum_space c = true) s →
  forallb is_ascii s = true ∧ ascii_lower s = s.
Proof.
  unfold ascii_lower. induction 1 as [|c s Hc _ [IH1 IH2]]; [done|].
  apply lower_alnum_space_ascii in Hc as [Ha Hl].
  csimpl. by rewrite Ha, IH1, Hl, IH2.
Qed.

(** [split_on]: the first field and the later fields. *)
Lemma hd_split_on_cons (sep c : N) (r : pystr) :
  hd [] (split_on sep (c :: r)) =
  if c =? sep then [] else c :: hd [] (split_on sep r).
Proof. simpl. destruct (c =? sep); [done|]. by destruct (split_on sep r). Qed.

Lemma tail_split_on_cons (sep c : N) (r : pystr) :
  tail (split_on sep (c :: r)) =
  if c =? sep then split_on sep r else tail (split_on sep r).
Proof. simpl. destruct (c =? sep); [done|]. by destruct (split_on sep r). Qed.

Lemma split_on_hd_tail (sep : N) (t : pystr) :
  split_on sep t = hd [] (split_on sep t) :: tail (split_on sep t).
Proof.
  destruct t as [|c r]; [done|]. simpl.
  destruct (c =? sep); [done|]. by destruct (split_on sep r).
Qed.

Lemma first_field (sep : N) (v t : pystr) :
  sep ∉ v →
  startswith (v ++ [sep]) (t ++ [sep]) = true ↔ hd [] (split_on sep t) = v.
Proof.
  revert t. induction v as [|a v IH]; intros t Hsep.
  - destruct t as [|c r]; [simpl; by rewrite N.eqb_refl|].
    rewrite hd_split_on_cons. simpl.
    rewrite andb_true_r, (N.eqb_sym sep c). by destruct (c =? sep).
  - apply not_elem_of_cons in Hsep as [Ha Hv].
    destruct t as [|c r].
    + simpl. destruct v; simpl; rewrite andb_false_r; by split.
    + rewrite hd_split_on_cons. simpl.
      rewrite andb_true_iff, N.eqb_eq, (IH r Hv).
      destruct (c =? sep) eqn:Hc.
      * apply N.eqb_eq in Hc as ->. split; [by intros [-> _] | done].
      * split; [by intros [-> ->] | by intros [= -> ->]].
Qed.

Lemma later_field (sep : N) (v t : pystr) :
  sep ∉ v →
  contains (sep :: v ++ [sep]) (t ++ [sep]) = true ↔
  v ∈ tail (split_on sep t).
Proof.
  intros Hsep. induction t as [|c r IH].
  - simpl. rewrite orb_false_r.
    destruct v; simpl; rewrite andb_false_r; split; [done | | done |];
      by intros ?%elem_of_nil.
  - rewrite tail_split_on_cons.
    change (contains (sep :: v ++ [sep]) ((c :: r) ++ [sep]))
      with ((sep =? c) && startswith (v ++ [sep]) (r ++ [sep]) ||
            contains (sep :: v ++ [sep]) (r ++ [sep])).
    rewrite orb_true_iff, andb_true_iff, IH, (first_field _ _ _ Hsep).
    rewrite (N.eqb_sym sep c). destruct (c =? sep).
    + rewrite (split_on_hd_tail sep r) at 3. rewrite elem_of_cons.
      split; [intros [[_ <-] | ?] | intros [-> | ?]]; auto.
    + split; [by intros [[? _] | ?] | auto].
Qed.

(** [' '+v+' ' in ' '+t+' '] says that [v] is one of the fields of [t]. *)
Lemma contains_padded (sep : N) (v t : pystr) :
  sep ∉ v →
  contains ([sep] ++ v ++ [sep]) ([sep] ++ t ++ [sep]) = true ↔
  v ∈ split_on sep t.
Proof.
  intros Hsep.
  change (contains ([sep] ++ v ++ [sep]) ([sep] ++ t ++ [sep]))
    with ((sep =? sep) && startswith (v ++ [sep]) (t ++ [sep]) ||
          contains (sep :: v ++ [sep]) (t ++ [sep])).
  rewrite N.eqb_refl, andb_true_l, orb_true_iff.
  rewrite (first_field _ _ _ Hsep), (later_field _ _ _ Hsep).
  rewrite (split_on_hd_tail sep t) at 3. rewrite elem_of_cons.
  split; intros [? | ?]; auto.
Qed.

Lemma startswith_first_field (sep : N) (v t : pystr) :
  sep ∉ v → startswith (v ++ [sep]) t = true → v ∈ split_on sep t.
Proof.
  intros Hsep H. rewrite (split_on_hd_tail sep t). apply elem_of_cons. left.
  symmetry. apply first_field; [done|].
  apply startswith_spec in H as [r ->]. apply startswith_spec.
  exists (r ++ [sep]). by rewrite <- !app_assoc.
Qed.

(** The end of the text and the end of its last line. *)
Lemma ends_clean_app (x s : pystr) : ends_clean s → ends_clean (x ++ s).
Proof. intros (c & Hc & Hne). exists c. by rewrite last_app, Hc. Qed.

Lemma ends_clean_not_endswith (s : pystr) :
  ends_clean s → endswith [LF] s = false.
Proof.
  intros (c & Hc & Hne). destruct (endswith [LF] s) eqn:He; [|done].
  apply endswith_spec in He as [l ->]. rewrite last_snoc in Hc. congruence.
Qed.

Lemma join_cons_cons (sep p q : pystr) (qs : list pystr) :
  join sep (p :: q :: qs) = p ++ sep ++ join sep (q :: qs).
Proof. done. Qed.

Lemma join_snoc (sep l : pystr) (ps : list pystr) :
  ∃ x, join sep (ps ++ [l]) = x ++ l.
Proof.
  induction ps as [|p ps [x IH]]; [by exists []|].
  destruct (ps ++ [l]) as [|q qs] eqn:Hq; [by destruct ps|].
  rewrite <- app_comm_cons, Hq, join_cons_cons, IH.
  exists (p ++ sep ++ x). by rewrite <- !app_assoc.
Qed.

Lemma join_ends_clean (sep : pystr) (parts : list pystr) :
  (∃ l, last parts = Some l ∧ ends_clean l) → ends_clean (join sep parts).
Proof.
  intros (l & Hl & Hclean). apply last_Some in Hl as [ps ->].
  destruct (join_snoc sep l ps) as [x ->]. by apply ends_clean_app.
Qed.

Lemma splitlines_aux_last (n : nat) : ∀ (t cur : pystr) (c : N),
  (length t ≤ n)%nat → is_linebreak c = false →
  ∃ l, last (splitlines_aux cur (t ++ [c])) = Some l ∧ last l = Some c.
Proof.
  induction n as [|n IH]; intros t cur c Hlen Hc.
  - destruct t; [|simpl in Hlen; lia]. simpl. rewrite Hc.
    exists (reverse (c :: cur)). by rewrite reverse_cons, last_snoc.
  - destruct t as [|d t'].
    { apply (IH [] cur c); [simpl; lia | done]. }
    simpl in Hlen. cbn [app splitlines_aux].
    destruct (is_linebreak d); [|apply IH; [lia | done]].
    destruct t' as [|e t'']; cbn [app].
    + destruct ((d =? CR) && (c =? LF)) eqn:Hcrlf.
      * apply andb_true_iff in Hcrlf as [_ ->%N.eqb_eq]. done.
      * destruct (IH [] [] c) as (l & Hl & Hlc); [simpl; lia | done |].
        exists l. split; [|done]. change ([] ++ [c]) with [c] in Hl.
        by rewrite last_cons, Hl.
    + simpl in Hlen. destruct ((d =? CR) && (e =? LF)).
      * destruct (IH t'' [] c) as (l & Hl & Hlc); [lia | done |].
        exists l. split; [|done]. by rewrite last_cons, Hl.
      * destruct (IH (e :: t'') [] c) as (l & Hl & Hlc); [simpl; lia | done |].
        exists l. split; [|done]. rewrite last_cons.
        by rewrite <- app_comm_cons in Hl; rewrite Hl.
Qed.

(** The last line of a text whose last character is not a line boundary
    ends with that character. *)
Lemma splitlines_last (text : pystr) (c : N) :
  last text = Some c → is_linebreak c = false →
  ∃ l, last (splitlines text) = Some l ∧ last l = Some c.
Proof.
  intros [t ->]%last_Some Hc. by apply (splitlines_aux_last (length t)).
Qed.

End StringFacts.

(** ** Facts about the program *)

Section Facts.

Variable lower : pystr → pystr.
Variable ratio : pystr → pystr → Q.

(** On ASCII text [str.lower] is the ASCII lowercasing. *)
Hypothesis lower_ascii :
  ∀ s, forallb is_ascii s = true → lower s = ascii_lower s.

Ltac on_ascii :=
  rewrite ?lower_ascii by reflexivity; vm_compute; reflexivity.

(** *** The normalizer *)

Lemma normalize_fields (s : option pystr) :
  normalize lower s = normalize_spec lower s.
Proof. apply strip_sub_ws_runs. Qed.

Lemma normalize_chars (s : option pystr) :
  Forall (λ c, is_lower_alnum_space c = true) (normalize lower s).
Proof.
  rewrite normalize_fields. apply join_chars; [by repeat constructor|].
  apply fields_chars, sub_non_alnum_chars.
Qed.

Lemma normalize_idempotent (s : option pystr) :
  normalize lower (Some (normalize lower s)) = normalize lower s.
Proof.
  rewrite (normalize_fields (Some _)). unfold normalize_spec. simpl.
  pose proof (normalize_chars s) as Hc.
  destruct (ascii_lower_fixed _ Hc) as [Ha Hl].
  rewrite (lower_ascii _ Ha), Hl, (sub_non_alnum_fixed _ Hc).
  rewrite normalize_fields. unfold normalize_spec.
  by rewrite fields_join by apply fields_word.
Qed.

(** C7. [normalize] is a total function; [None] and the empty string give
    the empty string; it is idempotent; its result is the lowercased input
    in which every character outside [[a-z0-9 ]] has become a space, the
    runs of whitespace have become one space and the ends are trimmed, that
    is the words of that text joined by single spaces; and
    [normalize("Hello, World!!  123")] is ["hello world 123"]. *)
Theorem normalize_total_idempotent :
  normalize lower None = [] ∧
  normalize lower (Some []) = [] ∧
  (∀ s, normalize lower (Some (normalize lower s)) = normalize lower s) ∧
  (∀ s, normalize lower s = normalize_spec lower s) ∧
  (∀ s, Forall (λ c, is_lower_alnum_space c = true) (normalize lower s)) ∧
  normalize lower (Some (py "Hello, World!!  123")) = py "hello world 123".
Proof.
  split_and!.
  - unfold normalize. on_ascii.
  - unfold normalize. on_ascii.
  - apply normalize_idempotent.
  - apply normalize_fields.
  - apply normalize_chars.
  - unfold normalize. on_ascii.
Qed.

(** *** The actionability check *)

Lemma verbs_no_space (v : pystr) : v ∈ ACTION_VERBS → SPACE ∉ v.
Proof.
  intros Hin. apply list_elem_of_In in Hin. simpl in Hin.
  repeat (destruct Hin as [<- | Hin];
          [apply (bool_decide_unpack _); vm_compute; reflexivity|]).
  done.
Qed.

Lemma is_actionable_word (title : pystr) :
  is_actionable lower title = true ↔
  ∃ v, v ∈ ACTION_VERBS ∧ v ∈ split_on SPACE (normalize lower (Some title)).
Proof.
  unfold is_actionable. rewrite existsb_exists. split.
  - intros (v & Hin%list_elem_of_In & H). exists v. split; [done|].
    pose proof (verbs_no_space v Hin) as Hsp.
    apply orb_true_iff in H as [H | H].
    + by apply startswith_first_field.
    + by apply contains_padded in H.
  - intros (v & Hin & H). exists v. split; [by apply list_elem_of_In|].
    apply orb_true_iff. right. apply contains_padded; [|done].
    by apply verbs_no_space.
Qed.

(** C6, as the code has it.  [is_actionable(title)] is true if and only if
    the normalized title starts with one of the twelve verbs followed by a
    space, or has one of them as a separate space-delimited word; the first
    case is an instance of the second one, so a verb counts only as a whole
    word: "recreate" does not count for "create". *)
Theorem is_actionable_whole_word :
  (∀ title,
     is_actionable lower title = true ↔
     ∃ v, v ∈ ACTION_VERBS ∧
          (startswith (v ++ [SPACE]) (normalize lower (Some title)) = true ∨
           v ∈ split_on SPACE (normalize lower (Some title)))) ∧
  (∀ title,
     is_actionable lower title = true ↔
     ∃ v, v ∈ ACTION_VERBS ∧
          v ∈ split_on SPACE (normalize lower (Some title))) ∧
  is_actionable lower (py "recreate") = false ∧
  is_actionable lower (py "Create a new draft doc") = true ∧
  is_actionable lower (py "Vague thought about stuff") = false.
Proof.
  split_and!.
  - intros title. rewrite is_actionable_word. split.
    + intros (v & ? & ?). exists v. auto.
    + intros (v & Hin & [H | H]); exists v; split; try done.
      apply startswith_first_field; [by apply verbs_no_space | done].
  - apply is_actionable_word.
  - unfold is_actionable, normalize. on_ascii.
  - unfold is_actionable, normalize. on_ascii.
  - unfold is_actionable, normalize. on_ascii.
Qed.

(** *** The decision records *)

Lemma place_records inp lines k it st :
  records (place lower ratio inp lines k it st) = records st.
Proof.
  unfold place. destruct (best_match _ _ _ _) as [[bi|] s]; [|done].
  destruct (Qlt_le_dec _ _); [done|]. by destruct (already_there _ _ _).
Qed.

Lemma step_records inp lines k it st :
  records (step lower ratio inp lines k it st) =
  records st ++ [record_of lower ratio (threshold inp) it].
Proof.
  unfold step. destruct (rec_decision _); [|done..].
  by rewrite place_records.
Qed.

Lemma loop_records inp lines its : ∀ k st,
  records (loop lower ratio inp lines k its st) =
  records st ++ (record_of lower ratio (threshold inp) <$> its).
Proof.
  induction its as [|it its IH]; intros k st; simpl.
  - by rewrite app_nil_r.
  - rewrite IH, step_records, <- app_assoc. done.
Qed.

Lemma main_records inp :
  out_records (main lower ratio inp) =
  record_of lower ratio (threshold inp) <$> items inp.
Proof. unfold main. simpl. by rewrite loop_records. Qed.

(** C8. Every suggestion of the batch gives exactly one decision record,
    whatever its decision and whether or not a line of the document
    matched: the records written at the end are the records of the
    suggestions, one for one and in the order of the batch. *)
Theorem one_record_per_suggestion (inp : inputs) :
  out_records (main lower ratio inp) =
    record_of lower ratio (threshold inp) <$> items inp ∧
  length (out_records (main lower ratio inp)) = length (items inp) ∧
  (∀ k, out_records (main lower ratio inp) !! k =
        record_of lower ratio (threshold inp) <$> (items inp !! k)) ∧
  (∀ it, rec_original (record_of lower ratio (threshold inp) it) = original it ∧
         rec_title (record_of lower ratio (threshold inp) it) =
           extract_title (suggested_text it)).
Proof.
  rewrite main_records. split_and!; [done | | | done].
  - by rewrite length_fmap.
  - intros k. by rewrite list_lookup_fmap.
Qed.

(** C1. The decision of the filter, in this order: a similarity of the
    normalized original and the normalized title that reaches the threshold
    (0.85 unless [--threshold] is given) gives [skip_similar], whatever the
    actionability check says; below the threshold a title that fails the
    actionability check gives [skip_not_actionable]; otherwise the decision
    is [insert]. *)
Theorem decision_order (inp : inputs) (k : nat) (it : suggestion) :
  items inp !! k = Some it →
  let title := extract_title (suggested_text it) in
  let sim := ratio (normalize lower (original it))
                   (normalize lower (Some title)) in
  ∃ r, out_records (main lower ratio inp) !! k = Some r ∧
       rec_similarity r = sim ∧
       rec_actionable r = is_actionable lower title ∧
       (threshold_arg inp = None → threshold inp = (85 # 100)%Q) ∧
       (∀ t, threshold_arg inp = Some t → threshold inp = t) ∧
       ((threshold inp <= sim)%Q → rec_decision r = skip_similar) ∧
       ((sim < threshold inp)%Q → is_actionable lower title = false →
        rec_decision r = skip_not_actionable) ∧
       ((sim < threshold inp)%Q → is_actionable lower title = true →
        rec_decision r = insert_).
Proof.
  intros Hk title sim. exists (record_of lower ratio (threshold inp) it).
  rewrite main_records, list_lookup_fmap, Hk.
  unfold threshold. split_and!; try done.
  - by intros ->.
  - by intros t ->.
  - intros Hle. simpl. unfold decide_. fold title.
    unfold similarity. fold sim.
    by apply Qle_bool_iff in Hle as ->.
  - intros Hlt Hact. simpl. unfold decide_, similarity. fold title sim.
    destruct (Qle_bool _ sim) eqn:Hb.
    + apply Qle_bool_iff in Hb. by apply Qlt_not_le in Hlt.
    + by rewrite Hact.
  - intros Hlt Hact. simpl. unfold decide_, similarity. fold title sim.
    destruct (Qle_bool _ sim) eqn:Hb.
    + apply Qle_bool_iff in Hb. by apply Qlt_not_le in Hlt.
    + by rewrite Hact.
Qed.

(** *** The scan for the best matching line *)

Lemma scanned_zero_le orig seen best :
  scanned lower ratio orig seen best → (0 <= best.2)%Q.
Proof.
  intros [_ H]. destruct best as [[i|] s]; simpl in *.
  - destruct H as [H _]. by apply Qlt_le_weak.
  - subst. apply Qle_refl.
Qed.

Lemma best_match_from_scanned orig rest : ∀ seen bi s,
  scanned lower ratio orig seen (bi, s) →
  scanned lower ratio orig (seen ++ rest)
    (best_match_from lower ratio orig (length seen) rest bi s).
Proof.
  induction rest as [|ln rest IH]; intros seen bi s Hs.
  - by rewrite app_nil_r.
  - cbn [best_match_from]. fold (score_of lower ratio orig ln).
    replace (seen ++ ln :: rest) with ((seen ++ [ln]) ++ rest)
      by by rewrite <- app_assoc.
    replace (S (length seen)) with (length (seen ++ [ln]))
      by (rewrite length_app; simpl; lia).
    pose proof (scanned_zero_le _ _ _ Hs) as H0. destruct Hs as [Hmax Hbest].
    simpl in *. destruct (Qlt_le_dec s (score_of lower ratio orig ln)) as [Hlt | Hle].
    + apply IH. split; simpl.
      * intros j x Hj. apply lookup_app_Some in Hj as [Hj | [_ Hj]].
        -- apply Qlt_le_weak. eapply Qle_lt_trans; [by eapply Hmax | done].
        -- apply list_lookup_singleton_Some in Hj as [_ <-]. apply Qle_refl.
      * split_and!.
        -- by eapply Qle_lt_trans.
        -- exists ln. split; [|done].
           rewrite lookup_app_r by done. by rewrite Nat.sub_diag.
        -- intros j x Hj Hx. rewrite lookup_app_l in Hx by done.
           eapply Qle_lt_trans; [by eapply Hmax | done].
    + apply IH. split; simpl.
      * intros j x Hj. apply lookup_app_Some in Hj as [Hj | [_ Hj]].
        -- by eapply Hmax.
        -- by apply list_lookup_singleton_Some in Hj as [_ <-].
      * destruct bi as [i|]; [|done].
        destruct Hbest as (Hpos & (x & Hx & Hsx) & Hfirst).
        split_and!; [done | |].
        -- exists x. split; [|done]. by apply lookup_app_l_Some.
        -- intros j y Hj Hy. apply (Hfirst j y Hj).
           apply lookup_lt_Some in Hx.
           rewrite lookup_app_l in Hy by lia. done.
Qed.

Lemma best_match_scanned orig lines :
  scanned lower ratio orig lines (best_match lower ratio orig lines).
Proof.
  apply (best_match_from_scanned orig lines [] None 0%Q).
  split; [|done]. intros j ln Hj. by rewrite lookup_nil in Hj.
Qed.

Lemma best_match_lt_length orig lines bi s :
  best_match lower ratio orig lines = (Some bi, s) → (bi < length lines)%nat.
Proof.
  intros H. pose proof (best_match_scanned orig lines) as [_ Hb].
  rewrite H in Hb. simpl in Hb. destruct Hb as (_ & (ln & Hln & _) & _).
  by apply lookup_lt_Some in Hln.
Qed.

(** *** The placement *)

Lemma double_insert {A} (idx : nat) (x y : A) (l : list A) :
  list_insert_at (idx + 1) y (list_insert_at idx x l) =
  take idx l ++ x :: y :: drop idx l.
Proof.
  unfold list_insert_at. destruct (decide (idx ≤ length l)%nat) as [Hle | Hgt].
  - assert (length (take idx l) = idx) as Hlen by (rewrite length_take; lia).
    rewrite take_app, drop_app, Hlen.
    rewrite (take_ge (take idx l)), (drop_ge (take idx l)) by lia.
    replace (idx + 1 - idx)%nat with 1%nat by lia. simpl.
    by rewrite <- app_assoc.
  - rewrite (take_ge l idx), (drop_ge l idx) by lia.
    rewrite (take_ge (l ++ [x])), (drop_ge (l ++ [x]))
      by (rewrite length_app; simpl; lia).
    by rewrite <- app_assoc.
Qed.

(** The two outcomes of [place]. *)
Lemma place_cases inp lines k it st :
  let orig := original it in
  let title := extract_title (suggested_text it) in
  let note := human_note title in
  let marker := machine_comment inp k orig title in
  place lower ratio inp lines k it st = st ∨
  ∃ bi s,
    best_match lower ratio orig lines = (Some bi, s) ∧
    (MATCH_FLOOR <= s)%Q ∧
    already_there note marker
      (window_of (bi + 1 + offset st) (new_lines st)) = false ∧
    place lower ratio inp lines k it st =
      State (take (bi + 1 + offset st) (new_lines st) ++
             note :: marker :: drop (bi + 1 + offset st) (new_lines st))
            (offset st + 2) (inserted st + 1) (records st).
Proof.
  intros orig title note marker. unfold place. fold orig title note marker.
  destruct (best_match _ _ _ _) as [[bi|] s]; [|by left].
  destruct (Qlt_le_dec _ _) as [Hlt | Hle]; [by left|].
  destruct (already_there _ _ _) eqn:Hthere; [by left|].
  right. exists bi, s. by rewrite double_insert.
Qed.

(** The two outcomes of one turn of the loop. *)
Lemma step_cases inp lines k it st :
  let orig := original it in
  let title := extract_title (suggested_text it) in
  let note := human_note title in
  let marker := machine_comment inp k orig title in
  let r := record_of lower ratio (threshold inp) it in
  step lower ratio inp lines k it st =
    State (new_lines st) (offset st) (inserted st) (records st ++ [r]) ∨
  ∃ bi s,
    rec_decision r = insert_ ∧
    best_match lower ratio orig lines = (Some bi, s) ∧
    (MATCH_FLOOR <= s)%Q ∧
    already_there note marker
      (window_of (bi + 1 + offset st) (new_lines st)) = false ∧
    step lower ratio inp lines k it st =
      State (take (bi + 1 + offset st) (new_lines st) ++
             note :: marker :: drop (bi + 1 + offset st) (new_lines st))
            (offset st + 2) (inserted st + 1) (records st ++ [r]).
Proof.
  intros orig title note marker r. unfold step. fold r.
  destruct (rec_decision r) eqn:Hd; [|by left..].
  destruct (place_cases inp lines k it
              (State (new_lines st) (offset st) (inserted st)
                     (records st ++ [r]))) as [-> | (bi & s & H1 & H2 & H3 & ->)];
    [by left|].
  right. exists bi, s. done.
Qed.

Lemma init_inv lines : loop_inv lines (init lines).
Proof. unfold loop_inv, init. simpl. split_and!; try done; lia. Qed.

Lemma sublist_insert2 {A} (idx : nat) (x y : A) (l : list A) :
  sublist l (take idx l ++ x :: y :: drop idx l).
Proof.
  rewrite <- (take_drop idx l) at 1. apply sublist_app; [done|].
  by do 2 apply sublist_cons.
Qed.

Lemma step_inv inp lines k it st :
  loop_inv lines st → loop_inv lines (step lower ratio inp lines k it st).
Proof.
  intros (Hlen & Hoff & Hhd & Hsub & Htl).
  destruct (step_cases inp lines k it st)
    as [-> | (bi & s & _ & Hbest & _ & _ & ->)]; [done|].
  apply best_match_lt_length in Hbest.
  unfold loop_inv. simpl. split_and!.
  - rewrite length_app. simpl. rewrite length_take, length_drop. lia.
  - lia.
  - destruct (new_lines st) as [|l0 rest]; [simpl in Hlen; lia|].
    by replace (bi + 1 + offset st)%nat with (S (bi + offset st)) by lia.
  - etrans; [done|]. apply sublist_insert2.
  - destruct (new_lines st) as [|l0 rest]; [simpl in Hlen; lia|].
    replace (bi + 1 + offset st)%nat with (S (bi + offset st)) by lia.
    simpl. etrans; [done|]. apply sublist_insert2.
Qed.

Lemma loop_inv_preserved inp lines its : ∀ k st,
  loop_inv lines st → loop_inv lines (loop lower ratio inp lines k its st).
Proof.
  induction its as [|it its IH]; intros k st Hst; [done|].
  simpl. by apply IH, step_inv.
Qed.

Lemma loop_app inp lines pre post : ∀ k st,
  loop lower ratio inp lines k (pre ++ post) st =
  loop lower ratio inp lines (k + length pre) post
    (loop lower ratio inp lines k pre st).
Proof.
  induction pre as [|it pre IH]; intros k st; simpl.
  - by rewrite Nat.add_0_r.
  - rewrite IH. by replace (S k + length pre)%nat with (k + S (length pre))%nat by lia.
Qed.

(** The lines that [window_of] reads. *)
Lemma elem_of_window (idx : nat) (ls : list pystr) (ln : pystr) :
  ln ∈ window_of idx ls ↔
  ∃ p, (idx - 2 ≤ p < idx + 3)%nat ∧ ls !! p = Some ln.
Proof.
  unfold window_of, slice. rewrite list_elem_of_lookup. split.
  - intros [j Hj]. apply lookup_take_Some in Hj as [Hj Hlt].
    rewrite lookup_drop in Hj. exists (idx - 2 + j)%nat. split; [lia | done].
  - intros (p & Hp & Hln). exists (p - (idx - 2))%nat.
    pose proof (lookup_lt_Some _ _ _ Hln) as Hlt.
    apply lookup_take_Some. rewrite lookup_drop.
    replace (idx - 2 + (p - (idx - 2)))%nat with p by lia. split; [done | lia].
Qed.

(** *** The claims about the loop *)

(** C2. For a suggestion that reaches the placement, every line of the
    downloaded document is scored, top to bottom, against the normalized
    original; the index kept is that of the first line with the greatest
    score (a later line replaces the best one only with a strictly greater
    score), and no index is kept when no score is above zero.  When no
    index is kept, or the best score is below 0.2, the turn of the loop
    changes nothing but the list of records, to which it adds the record
    of the filter. *)
Theorem best_match_first_maximum (inp : inputs) (lines : list pystr)
    (k : nat) (it : suggestion) (st : state) :
  let orig := original it in
  let best := best_match lower ratio orig lines in
  match best.1 with
  | Some i =>
      (∃ ln, lines !! i = Some ln ∧ best.2 = score_of lower ratio orig ln) ∧
      (0 < best.2)%Q ∧
      (∀ j ln, lines !! j = Some ln → (score_of lower ratio orig ln <= best.2)%Q) ∧
      (∀ j ln, (j < i)%nat → lines !! j = Some ln →
               (score_of lower ratio orig ln < best.2)%Q)
  | None =>
      best.2 = 0%Q ∧
      ∀ j ln, lines !! j = Some ln → (score_of lower ratio orig ln <= 0)%Q
  end ∧
  (best.1 = None ∨ (best.2 < MATCH_FLOOR)%Q →
   step lower ratio inp lines k it st =
     State (new_lines st) (offset st) (inserted st)
           (records st ++ [record_of lower ratio (threshold inp) it])).
Proof.
  intros orig best. split.
  - destruct (best_match_scanned orig lines) as [Hmax Hbest]. fold best in Hmax, Hbest.
    destruct (best.1) as [i|].
    + destruct Hbest as (? & ? & ?). done.
    + split; [done|]. intros j ln Hj. rewrite <- Hbest. by eapply Hmax.
  - intros Hdrop.
    destruct (step_cases inp lines k it st)
      as [-> | (bi & s & _ & Hbest & Hfloor & _ & _)]; [done|].
    fold orig in Hbest. unfold best in Hdrop. rewrite Hbest in Hdrop.
    simpl in Hdrop. destruct Hdrop as [? | Hlt]; [done|].
    by apply Qlt_not_le in Hlt.
Qed.

(** C3. At every turn of the loop of [main] that inserts, the note and the
    marker go to the indices [best_idx + 1 + offset] and
    [best_idx + 2 + offset] of the array as it is then, the offset grows by
    2, and the offset is twice the number of insertions made before: after
    one insertion, a match at the index 5 of the document puts its two
    lines at the index 5 + 1 + 2 = 8. *)
Theorem insertion_offset (inp : inputs) (pre post : list suggestion)
    (it : suggestion) (bi : nat) (s : Q) :
  let lines := splitlines (content inp) in
  let st := loop lower ratio inp lines 0 pre (init lines) in
  let title := extract_title (suggested_text it) in
  let note := human_note title in
  let marker := machine_comment inp (length pre) (original it) title in
  let idx := (bi + 1 + offset st)%nat in
  let st' := step lower ratio inp lines (length pre) it st in
  items inp = pre ++ it :: post →
  rec_decision (record_of lower ratio (threshold inp) it) = insert_ →
  best_match lower ratio (original it) lines = (Some bi, s) →
  (MATCH_FLOOR <= s)%Q →
  already_there note marker (window_of idx (new_lines st)) = false →
  new_lines st' =
    take idx (new_lines st) ++ note :: marker :: drop idx (new_lines st) ∧
  new_lines st' !! idx = Some note ∧
  new_lines st' !! (idx + 1)%nat = Some marker ∧
  (∀ j, (j < idx)%nat → new_lines st' !! j = new_lines st !! j) ∧
  (∀ j, (idx ≤ j)%nat → new_lines st' !! (j + 2)%nat = new_lines st !! j) ∧
  offset st' = (offset st + 2)%nat ∧
  inserted st' = (inserted st + 1)%nat ∧
  idx = (bi + 1 + 2 * inserted st)%nat ∧
  loop lower ratio inp lines 0 (items inp) (init lines) =
    loop lower ratio inp lines (S (length pre)) post st'.
Proof.
  intros lines st title note marker idx st' Hitems Hdec Hbest Hfloor Hwin.
  assert (loop_inv lines st) as (Hlen & Hoff & _)
    by apply loop_inv_preserved, init_inv.
  pose proof (best_match_lt_length _ _ _ _ Hbest) as Hbi.
  assert (new_lines st' =
          take idx (new_lines st) ++ note :: marker :: drop idx (new_lines st)
          ∧ offset st' = (offset st + 2)%nat
          ∧ inserted st' = (inserted st + 1)%nat) as (Hnew & Ho & Hi).
  { unfold st'.
    destruct (step_cases inp lines (length pre) it st)
      as [Hst | (bi' & s' & _ & Hbest' & _ & _ & ->)].
    - exfalso. unfold step in Hst. rewrite Hdec in Hst.
      unfold place in Hst. rewrite Hbest in Hst.
      destruct (Qlt_le_dec s MATCH_FLOOR) as [Hlt | _];
        [by apply Qlt_not_le in Hlt|].
      simpl in Hst. fold title note marker idx in Hst. rewrite Hwin in Hst.
      apply (f_equal inserted) in Hst. simpl in Hst. lia.
    - rewrite Hbest in Hbest'. by injection Hbest' as <- <-. }
  assert (length (take idx (new_lines st)) = idx) as Htake
    by (rewrite length_take; unfold idx; lia).
  split_and!; try done.
  - rewrite Hnew, lookup_app_r by lia. by rewrite Htake, Nat.sub_diag.
  - rewrite Hnew, lookup_app_r by lia.
    rewrite Htake. by replace (idx + 1 - idx)%nat with 1%nat by lia.
  - intros j Hj. rewrite Hnew, lookup_app_l by lia. by apply lookup_take_lt.
  - intros j Hj. rewrite Hnew, lookup_app_r by lia. rewrite Htake.
    replace (j + 2 - idx)%nat with (S (S (j - idx))) by lia. simpl.
    rewrite lookup_drop. f_equal. lia.
  - unfold idx. lia.
  - rewrite Hitems, loop_app. simpl. done.
Qed.

(** C4. Before an insertion the lines of the array at the indices
    [idx - 2] to [idx + 2] are read, the two before the insertion point
    [idx] and the three from it on, as the array is then; when the
    trimmed note or the marker of the suggestion occurs in one of them, or
    across them in their text joined by line feeds, the turn inserts
    nothing and leaves the offset and the count of insertions as they
    are, while the record of the suggestion, with its decision, is still
    added. *)
Theorem window_guard (inp : inputs) (lines : list pystr) (k : nat)
    (it : suggestion) (st : state) (bi : nat) (s : Q) :
  let title := extract_title (suggested_text it) in
  let note := human_note title in
  let marker := machine_comment inp k (original it) title in
  let idx := (bi + 1 + offset st)%nat in
  let window := window_of idx (new_lines st) in
  let st' := step lower ratio inp lines k it st in
  best_match lower ratio (original it) lines = (Some bi, s) →
  (∃ p ln, (idx - 2 ≤ p < idx + 3)%nat ∧ new_lines st !! p = Some ln ∧
           (contains (strip note) ln = true ∨ contains marker ln = true)) ∨
  contains (strip note) (join [LF] window) = true ∨
  contains marker (join [LF] window) = true →
  (∀ ln, ln ∈ window ↔
         ∃ p, (idx - 2 ≤ p < idx + 3)%nat ∧ new_lines st !! p = Some ln) ∧
  new_lines st' = new_lines st ∧
  offset st' = offset st ∧
  inserted st' = inserted st ∧
  records st' = records st ++ [record_of lower ratio (threshold inp) it].
Proof.
  intros title note marker idx window st' Hbest Hpresent.
  split; [apply elem_of_window|].
  assert (already_there note marker window = true) as Hthere.
  { unfold already_there. apply orb_true_iff.
    destruct Hpresent as [(p & ln & Hp & Hln & Hc) | [Hc | Hc]]; [|by left | by right].
    assert (ln ∈ window) as Hin by (apply elem_of_window; eauto).
    destruct Hc as [Hc | Hc]; [left | right]; by eapply contains_join. }
  unfold st'.
  destruct (step_cases inp lines k it st)
    as [-> | (bi' & s' & _ & Hbest' & _ & Hwin & _)]; [done|].
  rewrite Hbest in Hbest'. injection Hbest' as <- <-.
  fold title note marker idx window in Hwin. congruence.
Qed.

(** *** The last line of the array *)

Lemma machine_comment_clean inp k orig title :
  ends_clean (machine_comment inp k orig title).
Proof.
  unfold machine_comment. exists 62. split; [|done].
  change (py " -->") with (py " --" ++ [62]).
  by rewrite !app_assoc, last_snoc.
Qed.

Lemma step_last_clean inp lines k it st :
  last_clean (new_lines st) →
  last_clean (new_lines (step lower ratio inp lines k it st)).
Proof.
  intros Hst.
  destruct (step_cases inp lines k it st)
    as [-> | (bi & s & _ & _ & _ & _ & ->)]; [done|].
  cbn [new_lines]. intros l. rewrite last_app, !last_cons.
  destruct (last (drop (bi + 1 + offset st) (new_lines st))) as [y|] eqn:Hd.
  - intros [= <-]. apply Hst.
    rewrite <- (take_drop (bi + 1 + offset st) (new_lines st)), last_app.
    by rewrite Hd.
  - intros [= <-]. apply machine_comment_clean.
Qed.

Lemma loop_last_clean inp lines its : ∀ k st,
  last_clean (new_lines st) →
  last_clean (new_lines (loop lower ratio inp lines k its st)).
Proof.
  induction its as [|it its IH]; intros k st Hst; [done|].
  simpl. by apply IH, step_last_clean.
Qed.

Lemma last_line_clean inp :
  last (generatedAtUtc inp) ≠ Some LF → ends_clean (last_line inp).
Proof.
  intros Hgen. unfold last_line, ends_clean. rewrite !last_app.
  destruct (last (generatedAtUtc inp)) as [c|]; [exists c; split; congruence|].
  exists 61. done.
Qed.

Lemma update_last_review_clean (hdr : pystr) (ls : list pystr) :
  ends_clean hdr → last_clean ls →
  ∃ l, last (update_last_review hdr ls) = Some l ∧ ends_clean l.
Proof.
  intros Hhdr Hls. unfold update_last_review, last_clean in *.
  assert (∀ body, (body = ls ∨ ∃ l0, ls = l0 :: body) →
          ∃ l, last (hdr :: body) = Some l ∧ ends_clean l) as Hbody.
  { intros body Hb. rewrite last_cons.
    destruct (last body) as [y|] eqn:Hy; [|by exists hdr].
    exists y. split; [done|]. apply Hls.
    destruct Hb as [<- | [l0 ->]]; [done|]. by rewrite last_cons, Hy. }
  destruct ls as [|l0 rest]; [by exists hdr|].
  destruct (startswith LAST_REVIEW_PREFIX l0).
  - apply (Hbody rest). right. by exists l0.
  - apply (Hbody (l0 :: rest)). by left.
Qed.

(** *** The header and the output *)

Lemma main_loop_inv inp :
  loop_inv (splitlines (content inp))
    (loop lower ratio inp (splitlines (content inp)) 0 (items inp)
       (init (splitlines (content inp)))).
Proof. apply loop_inv_preserved, init_inv. Qed.

(** C5. After the loop the header line is at the index 0 of the array: a
    first line that starts with ["<!-- bot: last_review"] is replaced by
    it, and the array keeps its length; otherwise the header line is put
    in front of the array.  The first line of the array is then still the
    first line of the document.  The step is a function of the header
    line and of the array only: the counters of the loop are what the
    loop left. *)
Theorem header_update (inp : inputs) :
  let lines := splitlines (content inp) in
  let st := loop lower ratio inp lines 0 (items inp) (init lines) in
  let out := out_lines (main lower ratio inp) in
  out = update_last_review (last_line inp) (new_lines st) ∧
  out !! 0%nat = Some (last_line inp) ∧
  head (new_lines st) = head lines ∧
  match new_lines st with
  | l0 :: rest =>
      if startswith LAST_REVIEW_PREFIX l0
      then out = last_line inp :: rest ∧ length out = length (new_lines st)
      else out = last_line inp :: l0 :: rest ∧
           length out = S (length (new_lines st))
  | [] => out = [last_line inp]
  end ∧
  out_inserted (main lower ratio inp) = inserted st ∧
  offset st = (2 * out_inserted (main lower ratio inp))%nat.
Proof.
  intros lines st out.
  destruct (main_loop_inv inp) as (_ & Hoff & Hhd & _). fold lines st in Hoff, Hhd.
  unfold out, main. cbn [out_lines out_inserted]. fold lines st.
  unfold update_last_review.
  split_and!; try done.
  - destruct (new_lines st) as [|l0 rest]; [done|].
    by destruct (startswith LAST_REVIEW_PREFIX l0).
  - destruct (new_lines st) as [|l0 rest]; [done|].
    by destruct (startswith LAST_REVIEW_PREFIX l0).
Qed.

(** C9. The run only adds lines: the output array is the header line
    followed by an array of which the lines of the downloaded document
    are a subsequence, unchanged and in their order, but for a first line
    that starts with ["<!-- bot: last_review"], whose place the header
    line takes. *)
Theorem only_inserts (inp : inputs) :
  let lines := splitlines (content inp) in
  let out := out_lines (main lower ratio inp) in
  ∃ body, out = last_line inp :: body ∧
          sublist (kept_lines lines) body ∧
          sublist (kept_lines lines) out.
Proof.
  intros lines out.
  destruct (main_loop_inv inp) as (_ & _ & Hhd & Hsub & Htl).
  fold lines in Hhd, Hsub, Htl.
  unfold out, main. cbn [out_lines]. fold lines.
  unfold update_last_review, kept_lines.
  set (ls := new_lines (loop lower ratio inp lines 0 (items inp) (init lines)))
    in *.
  destruct ls as [|l0 rest].
  - apply sublist_nil_r in Hsub. rewrite Hsub.
    exists []. split_and!; [done | apply sublist_nil_l..].
  - destruct lines as [|d0 drest].
    + destruct (startswith LAST_REVIEW_PREFIX l0);
        eexists; split_and!; try done; apply sublist_nil_l.
    + cbn [head tail] in Hhd, Htl. injection Hhd as ->.
      destruct (startswith LAST_REVIEW_PREFIX d0).
      * exists rest. split_and!; [done | done | by apply sublist_cons].
      * exists (d0 :: rest). split_and!; [done | done | by apply sublist_cons].
Qed.

(** The two ends of the text that is sent: a text that ends with a line
    feed is sent with one more line feed after the joined array; a text
    whose last character is not a line boundary is sent without a line
    feed at its end, when the hash of the header line does not end with
    one either. *)
Lemma serialize_ends (inp : inputs) :
  let out := main lower ratio inp in
  new_content out =
    join [LF] (out_lines out) ++
    (if endswith [LF] (content inp) then [LF] else []) ∧
  (endswith [LF] (content inp) = true ↔ ∃ t, content inp = t ++ [LF]) ∧
  ((∃ t, content inp = t ++ [LF]) →
   new_content out = join [LF] (out_lines out) ++ [LF] ∧
   endswith [LF] (new_content out) = true) ∧
  ((¬ ∃ t, content inp = t ++ [LF]) →
   new_content out = join [LF] (out_lines out)) ∧
  ((∀ c, last (content inp) = Some c → is_linebreak c = false) →
   last (generatedAtUtc inp) ≠ Some LF →
   endswith [LF] (content inp) = false ∧
   endswith [LF] (new_content out) = false).
Proof.
  intros out. pose proof (endswith_spec [LF] (content inp)) as Hspec.
  unfold out, main, serialize. cbn [out_lines new_content].
  split_and!; [done | done | | |].
  - intros Hnl. apply Hspec in Hnl as Hb. rewrite Hb. split; [done|].
    apply endswith_spec. by eexists.
  - intros Hnl. destruct (endswith [LF] (content inp)) eqn:Hb.
    + destruct Hnl. by apply Hspec.
    + by rewrite app_nil_r.
  - intros Hend Hgen.
    assert (endswith [LF] (content inp) = false) as Hb.
    { destruct (endswith [LF] (content inp)) eqn:Hb; [|done].
      apply endswith_spec in Hb as [t Ht]. specialize (Hend LF).
      rewrite Ht, last_snoc in Hend. by specialize (Hend eq_refl). }
    rewrite Hb, app_nil_r. split; [done|].
    apply ends_clean_not_endswith, join_ends_clean.
    apply update_last_review_clean; [by apply last_line_clean|].
    apply loop_last_clean. unfold init. cbn [new_lines]. intros l Hl.
    destruct (last (content inp)) as [c|] eqn:Hc.
    + destruct (splitlines_last _ _ Hc (Hend c eq_refl)) as (l' & Hl' & Hlc).
      rewrite Hl in Hl'. injection Hl' as <-. exists c. split; [done|].
      intros ->. by specialize (Hend LF eq_refl).
    + apply last_None in Hc. by rewrite Hc in Hl.
Qed.

(** C10, as the code has it.  The text that is sent is the output array
    joined by line feeds, followed by one more line feed exactly when the
    downloaded text ends with a line feed.  When the downloaded text is
    empty or its last character is a line feed or no line boundary at
    all, and the hash of the header line does not end with a line feed,
    the text that is sent ends with a line feed exactly when the
    downloaded text does.  (After another line boundary at the end, a
    carriage return for one, [splitlines] leaves a last line that is
    empty or cut short, and the end of the text is not kept.) *)
Theorem trailing_newline_kept (inp : inputs) :
  (∀ c, last (content inp) = Some c → is_linebreak c = true → c = LF) →
  last (generatedAtUtc inp) ≠ Some LF →
  let out := main lower ratio inp in
  new_content out =
    join [LF] (out_lines out) ++
    (if endswith [LF] (content inp) then [LF] else []) ∧
  endswith [LF] (new_content out) = endswith [LF] (content inp).
Proof.
  intros Hend Hgen out.
  destruct (serialize_ends inp) as (Hser & _ & Hpresent & _ & Habsent).
  fold out in Hser, Hpresent, Habsent. split; [exact Hser|].
  destruct (endswith [LF] (content inp)) eqn:Hb.
  - apply endswith_spec in Hb. by destruct (Hpresent Hb) as [_ ->].
  - assert (∀ c, last (content inp) = Some c → is_linebreak c = false)
      as Hlast.
    { intros c Hc. destruct (is_linebreak c) eqn:Hlb; [|done].
      rewrite (Hend c Hc Hlb) in Hc.
      apply last_Some in Hc as [t Ht].
      assert (endswith [LF] (content inp) = true) as Hb'
        by (apply endswith_spec; by exists t).
      congruence. }
    by destruct (Habsent Hlast Hgen) as [_ ->].
Qed.

End Facts.

(** ** The facts on the concrete runs *)

Lemma normalize_total_idempotent_witness :
  (∀ s, forallb is_ascii s = true → ascii_lower s = ascii_lower s) ∧
  normalize ascii_lower None = [] ∧
  normalize ascii_lower (Some []) = [] ∧
  (∀ s, normalize ascii_lower (Some (normalize ascii_lower s)) =
        normalize ascii_lower s) ∧
  (∀ s, normalize ascii_lower s = normalize_spec ascii_lower s) ∧
  (∀ s, Forall (λ c, is_lower_alnum_space c = true)
               (normalize ascii_lower s)) ∧
  normalize ascii_lower (Some (py "Hello, World!!  123")) =
    py "hello world 123".
Proof.
  split; [reflexivity|].
  apply (normalize_total_idempotent ascii_lower). reflexivity.
Defined.

Lemma is_actionable_whole_word_witness :
  (∀ s, forallb is_ascii s = true → ascii_lower s = ascii_lower s) ∧
  is_actionable ascii_lower (py "recreate") = false ∧
  is_actionable ascii_lower (py "Create a new draft doc") = true ∧
  is_actionable ascii_lower (py "Vague thought about stuff") = false.
Proof.
  split; [reflexivity|].
  apply (is_actionable_whole_word ascii_lower). reflexivity.
Defined.

(** The title "Testing the login flow" starts, once normalized, with the
    verb "test", and is not actionable: the verb is not followed by a
    space. *)
Lemma is_actionable_prefix_counterexample :
  py "test" ∈ ACTION_VERBS ∧
  startswith (py "test")
    (normalize ascii_lower (Some (py "Testing the login flow"))) = true ∧
  is_actionable ascii_lower (py "Testing the login flow") = false.
Proof.
  split; [|split; vm_compute; reflexivity].
  apply list_elem_of_In. do 9 right. left. reflexivity.
Qed.

(** "Buy milk" against "- [ ] Buy milk": the similarity is 1, the title is
    not actionable, and the decision is [skip_similar]. *)
Lemma decision_order_witness :
  items Demo.first_run !! 0%nat = Some Demo.buy_milk ∧
  ∃ r, out_records (main ascii_lower Difflib.ratio Demo.first_run) !! 0%nat
         = Some r ∧
       rec_actionable r = false ∧
       rec_decision r = skip_similar.
Proof.
  split; [reflexivity|].
  destruct (decision_order ascii_lower Difflib.ratio Demo.first_run 0
              Demo.buy_milk eq_refl)
    as (r & Hr & _ & Hact & _ & _ & Hskip & _).
  exists r. split; [exact Hr|]. split.
  - rewrite Hact. vm_compute. reflexivity.
  - apply Hskip. vm_compute. discriminate.
Defined.

(** A suggestion that the filter lets through and whose best line, the
    line 5, scores 2/24, below the floor: the turn only adds the record. *)
Lemma best_match_first_maximum_witness :
  let lines := splitlines (content Demo.first_run) in
  let r := record_of ascii_lower Difflib.ratio (threshold Demo.first_run)
             Demo.faint in
  best_match ascii_lower Difflib.ratio (original Demo.faint) lines
    = (Some 5%nat, (2 # 24)%Q) ∧
  rec_decision r = insert_ ∧
  step ascii_lower Difflib.ratio Demo.first_run lines 0 Demo.faint
       (init lines) =
    State (new_lines (init lines)) (offset (init lines))
          (inserted (init lines)) (records (init lines) ++ [r]).
Proof.
  intros lines r.
  split; [vm_compute; reflexivity|]. split; [vm_compute; reflexivity|].
  destruct (best_match_first_maximum ascii_lower Difflib.ratio
              Demo.first_run lines 0 Demo.faint (init lines))
    as [_ Hdrop].
  apply Hdrop. right. vm_compute. reflexivity.
Defined.

(** Of two equal lines the first one is kept; an original that shares no
    character with any line keeps none. *)
Example best_match_examples :
  best_match ascii_lower Difflib.ratio (Some (py "Buy milk"))
    [py "# Todo"; py "- [ ] Buy milk"; py "- [ ] Buy milk"]
    = (Some 1%nat, (16 # 16)%Q) ∧
  best_match ascii_lower Difflib.ratio (original Demo.orphan)
    (splitlines (content Demo.first_run)) = (None, 0%Q).
Proof. vm_compute. repeat split. Qed.

(** The second insertion of the first run: the match is the line 5 of the
    document, one insertion was made before, and the note and the marker
    are the lines 8 and 9 of the array. *)
Lemma insertion_offset_witness :
  let lines := splitlines (content Demo.first_run) in
  let st := loop ascii_lower Difflib.ratio Demo.first_run lines 0
              [Demo.buy_milk; Demo.retro] (init lines) in
  let st' := step ascii_lower Difflib.ratio Demo.first_run lines 2
               Demo.budget st in
  best_match ascii_lower Difflib.ratio (original Demo.budget) lines
    = (Some 5%nat, (46 # 46)%Q) ∧
  new_lines st' !! 8%nat
    = Some (human_note (py "Schedule meeting with finance")) ∧
  new_lines st' !! 9%nat
    = Some (machine_comment Demo.first_run 2 (original Demo.budget)
              (py "Schedule meeting with finance")) ∧
  offset st' = 4%nat.
Proof.
  intros lines st st'.
  assert (best_match ascii_lower Difflib.ratio (original Demo.budget) lines
          = (Some 5%nat, (46 # 46)%Q)) as Hbest by (vm_compute; reflexivity).
  split; [exact Hbest|].
  destruct (insertion_offset ascii_lower Difflib.ratio Demo.first_run
              [Demo.buy_milk; Demo.retro] [] Demo.budget 5 (46 # 46)%Q)
    as (_ & Hnote & Hmarker & _ & _ & Hoff & _).
  - reflexivity.
  - vm_compute. reflexivity.
  - exact Hbest.
  - vm_compute. discriminate.
  - vm_compute. reflexivity.
  - assert (offset st = 2%nat) as Hst by (vm_compute; reflexivity).
    fold lines st st' in Hnote, Hmarker, Hoff.
    rewrite Hst in Hnote, Hmarker, Hoff.
    split; [exact Hnote|]. split; [exact Hmarker|]. exact Hoff.
Defined.

(** The second run: the note of the suggestion is the line 4 of the
    annotated document, next to the matched line 3, and the turn inserts
    nothing. *)
Lemma window_guard_witness :
  let lines := splitlines (content Demo.second_run) in
  let st' := step ascii_lower Difflib.ratio Demo.second_run lines 1
               Demo.retro (init lines) in
  lines !! 4%nat = Some (human_note (py "Create retro action plan")) ∧
  rec_decision (record_of ascii_lower Difflib.ratio
                  (threshold Demo.second_run) Demo.retro) = insert_ ∧
  new_lines st' = new_lines (init lines) ∧
  offset st' = offset (init lines) ∧ inserted st' = inserted (init lines).
Proof.
  intros lines st'.
  assert (lines !! 4%nat = Some (human_note (py "Create retro action plan")))
    as Hline by (vm_compute; reflexivity).
  split; [exact Hline|]. split; [vm_compute; reflexivity|].
  destruct (window_guard ascii_lower Difflib.ratio Demo.second_run lines 1
              Demo.retro (init lines) 3 (36 # 36)%Q)
    as (_ & Hnew & Hoff & Hins & _).
  - vm_compute. reflexivity.
  - left. exists 4%nat, (human_note (py "Create retro action plan")).
    split; [vm_compute; lia|]. split; [exact Hline|].
    left. vm_compute. reflexivity.
  - split; [exact Hnew|]. split; [exact Hoff | exact Hins].
Defined.

(** The whole second run gives the lines of the first one again. *)
Example second_run_adds_nothing :
  out_lines (main ascii_lower Difflib.ratio Demo.second_run) =
  out_lines (main ascii_lower Difflib.ratio Demo.first_run) ∧
  out_inserted (main ascii_lower Difflib.ratio Demo.first_run) = 2%nat ∧
  out_inserted (main ascii_lower Difflib.ratio Demo.second_run) = 0%nat ∧
  rec_decision <$> out_records (main ascii_lower Difflib.ratio Demo.second_run)
    = [skip_similar; insert_; insert_].
Proof. vm_compute. repeat split. Qed.

(** The model of [difflib] on the examples of its documentation. *)
Example difflib_ratio_doc :
  Difflib.ratio (py "abcd") (py "bcde") = (6 # 8)%Q ∧
  Difflib.ratio (py "abxcd") (py "abcd") = (8 # 9)%Q ∧
  Difflib.ratio [] [] = 1%Q ∧
  Difflib.find_longest_match (py " abcd") (py "abcd abcd") 0 5 0 9
    = (0, 4, 5)%nat.
Proof. vm_compute. repeat split. Qed.

(** "Team standup notes" against "- [ ] Create retro action plan": a low
    similarity and a title that starts with "create" give [insert]. *)
Example retro_is_inserted :
  rec_decision (record_of ascii_lower Difflib.ratio THRESHOLD Demo.retro)
    = insert_ ∧
  rec_similarity (record_of ascii_lower Difflib.ratio THRESHOLD Demo.retro)
    = (12 # 42)%Q.
Proof. vm_compute. repeat split. Qed.

(** ** More facts about the string operations *)

Section MoreStringFacts.

Lemma endswith_LF_last (s : pystr) :
  endswith [LF] s = true ↔ last s = Some LF.
Proof.
  rewrite endswith_spec, last_Some. done.
Qed.

Lemma endswith_LF_cons (c : N) (r : pystr) :
  r ≠ [] → endswith [LF] (c :: r) = endswith [LF] r.
Proof.
  intros Hr. destruct r as [|d r']; [done|].
  apply eq_true_iff_eq. by rewrite !endswith_LF_last, last_cons_cons.
Qed.

Lemma splitlines_aux_nonempty (s : pystr) : ∀ cur,
  cur ≠ [] ∨ s ≠ [] → splitlines_aux cur s ≠ [].
Proof.
  induction s as [|c r IH]; intros cur H.
  - destruct H as [H | H]; [|done]. by destruct cur.
  - cbn [splitlines_aux]. destruct (is_linebreak c).
    + destruct r as [|d r']; [done|]. by destruct ((c =? CR) && (d =? LF)).
    + apply IH. by left.
Qed.

(** A text whose only line boundary is the line feed is its lines joined
    by line feeds, with the final line feed that [splitlines] dropped. *)
Lemma join_splitlines_aux (s : pystr) : ∀ cur,
  (∀ c, c ∈ s → is_linebreak c = true → c = LF) →
  join [LF] (splitlines_aux cur s) ++ (if endswith [LF] s then [LF] else [])
  = reverse cur ++ s.
Proof.
  induction s as [|c r IH]; intros cur Hlf.
  - cbn [splitlines_aux]. change (endswith [LF] []) with false.
    rewrite !app_nil_r. by destruct cur.
  - cbn [splitlines_aux]. destruct (is_linebreak c) eqn:Hc.
    + assert (c = LF) as -> by (apply Hlf; [by left | done]).
      destruct r as [|d r']; [done|].
      change ((LF =? CR) && (d =? LF)) with false. cbn iota.
      rewrite endswith_LF_cons by done.
      assert (∀ x, x ∈ d :: r' → is_linebreak x = true → x = LF) as Hr
        by (intros x Hx; apply Hlf; by right).
      specialize (IH [] Hr).
      assert (splitlines_aux [] (d :: r') ≠ []) as Hne
        by (apply splitlines_aux_nonempty; by right).
      destruct (splitlines_aux [] (d :: r')) as [|q qs]; [done|].
      rewrite join_cons_cons, <- !app_assoc, IH. done.
    + assert (∀ x, x ∈ r → is_linebreak x = true → x = LF) as Hr
        by (intros x Hx; apply Hlf; by right).
      specialize (IH (c :: cur) Hr). rewrite reverse_cons, <- app_assoc in IH.
      destruct r as [|d r'].
      * change (endswith [LF] []) with false in IH.
        assert (endswith [LF] [c] = false) as ->; [|done].
        destruct (endswith [LF] [c]) eqn:He; [|done].
        apply endswith_LF_last in He. injection He as ->. done.
      * by rewrite endswith_LF_cons.
Qed.

Lemma splitlines_aux_no_linebreak (n : nat) : ∀ (s cur : pystr),
  (length s ≤ n)%nat →
  Forall (λ c, is_linebreak c = false) cur →
  Forall (Forall (λ c, is_linebreak c = false)) (splitlines_aux cur s).
Proof.
  induction n as [|n IH]; intros s cur Hlen Hcur.
  - destruct s; [|simpl in Hlen; lia]. cbn [splitlines_aux].
    destruct cur; [done|]. repeat constructor. by apply Forall_reverse.
  - destruct s as [|c r]; [apply (IH [] cur); [simpl; lia | done]|].
    simpl in Hlen. cbn [splitlines_aux]. destruct (is_linebreak c) eqn:Hc.
    + destruct r as [|d r']; [repeat constructor; by apply Forall_reverse|].
      simpl in Hlen. destruct ((c =? CR) && (d =? LF)).
      * constructor; [by apply Forall_reverse|]. apply IH; [lia | done].
      * constructor; [by apply Forall_reverse|]. apply IH; [simpl; lia | done].
    + apply IH; [lia|]. by constructor.
Qed.

Lemma splitlines_no_linebreak (s : pystr) :
  Forall (Forall (λ c, is_linebreak c = false)) (splitlines s).
Proof. by apply (splitlines_aux_no_linebreak (length s)). Qed.

(** [split_on] and [join]. *)
Lemma hd_split_on_no_sep (sep : N) (s : pystr) :
  sep ∉ hd [] (split_on sep s).
Proof.
  induction s as [|c r IH]; [by apply not_elem_of_nil|].
  rewrite hd_split_on_cons. destruct (c =? sep) eqn:Hc.
  - by apply not_elem_of_nil.
  - apply not_elem_of_cons. split; [|done].
    intros ->. by rewrite N.eqb_refl in Hc.
Qed.

Lemma split_on_app_sep (sep : N) (a b : pystr) :
  sep ∉ a → split_on sep (a ++ sep :: b) = a :: split_on sep b.
Proof.
  induction a as [|c a IH]; intros Ha.
  - simpl. by rewrite N.eqb_refl.
  - apply not_elem_of_cons in Ha as [Hc Ha]. simpl.
    destruct (c =? sep) eqn:Heq; [apply N.eqb_eq in Heq; by subst|].
    by rewrite (IH Ha).
Qed.

Lemma split_on_no_sep (sep : N) (a : pystr) :
  sep ∉ a → split_on sep a = [a].
Proof.
  induction a as [|c a IH]; intros Ha; [done|].
  apply not_elem_of_cons in Ha as [Hc Ha]. simpl.
  destruct (c =? sep) eqn:Heq; [apply N.eqb_eq in Heq; by subst|].
  by rewrite (IH Ha).
Qed.

Lemma split_on_join (sep : N) (parts : list pystr) :
  parts ≠ [] → Forall (λ p, sep ∉ p) parts →
  split_on sep (join [sep] parts) = parts.
Proof.
  induction parts as [|p ps IH]; intros Hne Hall; [done|].
  apply Forall_cons in Hall as [Hp Hps]. destruct ps as [|q qs].
  - by apply split_on_no_sep.
  - rewrite join_cons_cons. change ([sep] ++ ?x) with (sep :: x).
    rewrite split_on_app_sep by done. by rewrite IH.
Qed.

(** [s.strip()] is a piece of [s]. *)
Lemma lstrip_suffix (s : pystr) : ∃ l, s = l ++ lstrip s.
Proof.
  induction s as [|c r [l IH]]; [by exists []|]. cbn [lstrip].
  destruct (is_space c); [|by exists []].
  exists (c :: l). by rewrite <- app_comm_cons, <- IH.
Qed.

Lemma rstrip_prefix (s : pystr) : ∃ r, s = rstrip s ++ r.
Proof.
  induction s as [|c s [r IH]]; [by exists []|]. cbn [rstrip].
  destruct (rstrip s) as [|d s'] eqn:Hs.
  - destruct (is_space c); [by exists (c :: s)|].
    exists r. simpl. by rewrite IH at 1.
  - exists r. rewrite <- app_comm_cons. by rewrite IH at 1.
Qed.

Lemma contains_strip (s : pystr) : contains (strip s) s = true.
Proof.
  apply contains_spec. unfold strip.
  destruct (lstrip_suffix s) as [l Hl]. destruct (rstrip_prefix (lstrip s)) as [r Hr].
  exists l, r. by rewrite <- Hr.
Qed.

Lemma contains_trans (a b c : pystr) :
  contains a b = true → contains b c = true → contains a c = true.
Proof.
  rewrite !contains_spec. intros (l1 & r1 & ->) (l2 & r2 & ->).
  exists (l2 ++ l1), (r1 ++ r2). by rewrite <- !app_assoc.
Qed.

(** A check that a text breaks its lines at line feeds only. *)
Lemma lf_only_check (text : pystr) :
  forallb (λ c, negb (is_linebreak c) || (c =? LF)) text = true →
  ∀ c, c ∈ text → is_linebreak c = true → c = LF.
Proof.
  intros Hall c Hin Hc. rewrite forallb_forall in Hall.
  apply list_elem_of_In, Hall in Hin. rewrite Hc in Hin.
  by apply N.eqb_eq in Hin.
Qed.

Lemma not_elem_check (c : N) (s : pystr) :
  forallb (λ d, negb (d =? c)) s = true → c ∉ s.
Proof.
  intros Hall Hin. rewrite forallb_forall in Hall.
  apply list_elem_of_In, Hall in Hin. by rewrite N.eqb_refl in Hin.
Qed.

Lemma all_space_check (ws : pystr) :
  forallb is_space ws = true → Forall (λ c, is_space c = true) ws.
Proof.
  intros Hall. apply Forall_forall. intros c Hin.
  rewrite forallb_forall in Hall. by apply Hall, list_elem_of_In.
Qed.

End MoreStringFacts.

(** ** More facts about the program *)

Section MoreFacts.

Variable lower : pystr → pystr.
Variable ratio : pystr → pystr → Q.

(** *** Counts *)

Lemma step_inserted inp lines k it st :
  let r := record_of lower ratio (threshold inp) it in
  (inserted (step lower ratio inp lines k it st) ≤
   inserted st + (if is_insert r then 1 else 0))%nat.
Proof.
  intros r.
  destruct (step_cases lower ratio inp lines k it st)
    as [-> | (bi & s & Hdec & _ & _ & _ & ->)]; cbn [inserted]; [lia|].
  unfold is_insert. fold r in Hdec |- *. rewrite Hdec. lia.
Qed.

Lemma loop_inserted inp lines its : ∀ k st,
  (inserted (loop lower ratio inp lines k its st) ≤
   inserted st +
   count_inserts (record_of lower ratio (threshold inp) <$> its))%nat.
Proof.
  induction its as [|it its IH]; intros k st; [simpl; lia|].
  cbn [loop]. etrans; [apply IH|].
  pose proof (step_inserted inp lines k it st) as Hstep. cbn zeta in Hstep.
  unfold count_inserts in *. rewrite fmap_cons. cbn [List.filter].
  destruct (is_insert (record_of lower ratio (threshold inp) it));
    cbn [length]; lia.
Qed.

Lemma count_inserts_le (rs : list record) :
  (count_inserts rs ≤ length rs)%nat.
Proof.
  unfold count_inserts. induction rs as [|r rs IH]; [done|].
  cbn [List.filter]. destruct (is_insert r); simpl; lia.
Qed.

(** X5. The count that the run prints is at most the number of records that
    say ['insert'], and so at most the number of suggestions. *)
Theorem inserted_at_most_insert_decisions (inp : inputs) :
  (out_inserted (main lower ratio inp) ≤
   count_inserts (out_records (main lower ratio inp)))%nat ∧
  (count_inserts (out_records (main lower ratio inp)) ≤
   length (items inp))%nat.
Proof.
  rewrite main_records. split.
  - unfold main. cbn [out_inserted]. etrans; [apply loop_inserted|]. done.
  - etrans; [apply count_inserts_le|]. by rewrite length_fmap.
Qed.

(** X4. The output array has the lines that the run keeps, two lines for each
    insertion that it counts, and the header line. *)
Theorem output_line_count (inp : inputs) :
  length (out_lines (main lower ratio inp)) =
  (length (kept_lines (splitlines (content inp))) +
   2 * out_inserted (main lower ratio inp) + 1)%nat.
Proof.
  destruct (main_loop_inv lower ratio inp) as (Hlen & Hoff & Hhd & _).
  unfold main. cbn [out_lines out_inserted].
  set (lines := splitlines (content inp)) in *.
  set (st := loop lower ratio inp lines 0 (items inp) (init lines)) in *.
  unfold update_last_review, kept_lines.
  destruct (new_lines st) as [|l0 rest].
  - destruct lines; simpl in *; [lia | done].
  - destruct lines as [|d0 drest]; [done|].
    cbn [head] in Hhd. injection Hhd as ->.
    destruct (startswith LAST_REVIEW_PREFIX d0); simpl in *; lia.
Qed.

(** *** The empty document *)

Lemma step_no_lines inp k it st :
  step lower ratio inp [] k it st =
  State (new_lines st) (offset st) (inserted st)
        (records st ++ [record_of lower ratio (threshold inp) it]).
Proof.
  destruct (step_cases lower ratio inp [] k it st)
    as [-> | (bi & s & _ & Hbest & _)]; [done|].
  apply best_match_lt_length in Hbest. simpl in Hbest. lia.
Qed.

Lemma loop_no_lines inp its : ∀ k st,
  new_lines (loop lower ratio inp [] k its st) = new_lines st ∧
  inserted (loop lower ratio inp [] k its st) = inserted st.
Proof.
  induction its as [|it its IH]; intros k st; [done|].
  cbn [loop]. rewrite step_no_lines.
  by destruct (IH (S k) (State (new_lines st) (offset st) (inserted st)
                 (records st ++ [record_of lower ratio (threshold inp) it])))
    as [-> ->].
Qed.

(** X6. On an empty document nothing is inserted, whatever the batch: the text
    that is sent is the header line alone, and every suggestion still has
    its record. *)
Theorem empty_document (inp : inputs) :
  content inp = [] →
  out_lines (main lower ratio inp) = [last_line inp] ∧
  new_content (main lower ratio inp) = last_line inp ∧
  out_inserted (main lower ratio inp) = 0%nat ∧
  length (out_records (main lower ratio inp)) = length (items inp).
Proof.
  intros Hc. rewrite main_records, length_fmap. unfold main, serialize.
  cbn [out_lines new_content out_inserted]. rewrite Hc.
  change (splitlines []) with (@nil pystr).
  destruct (loop_no_lines inp (items inp) 0 (init [])) as [-> ->].
  change (endswith [LF] []) with false. cbn [init new_lines inserted].
  unfold update_last_review, list_insert_at. cbn [take drop app join].
  by rewrite app_nil_r.
Qed.

(** *** Where the lines of the output come from *)

Lemma step_provenance inp lines k it st l :
  l ∈ new_lines (step lower ratio inp lines k it st) →
  l ∈ new_lines st ∨
  rec_decision (record_of lower ratio (threshold inp) it) = insert_ ∧
  (l = human_note (extract_title (suggested_text it)) ∨
   l = machine_comment inp k (original it)
         (extract_title (suggested_text it))).
Proof.
  destruct (step_cases lower ratio inp lines k it st)
    as [-> | (bi & s & Hdec & _ & _ & _ & ->)]; [by left|].
  cbn [new_lines]. rewrite elem_of_app, !elem_of_cons.
  intros [Hl | [-> | [-> | Hl]]]; [left | by right; auto.. | left].
  - by eapply subseteq_take.
  - by eapply subseteq_drop.
Qed.

Lemma loop_provenance inp lines its : ∀ k st l,
  l ∈ new_lines (loop lower ratio inp lines k its st) →
  l ∈ new_lines st ∨
  ∃ j it,
    its !! j = Some it ∧
    rec_decision (record_of lower ratio (threshold inp) it) = insert_ ∧
    (l = human_note (extract_title (suggested_text it)) ∨
     l = machine_comment inp (k + j) (original it)
           (extract_title (suggested_text it))).
Proof.
  induction its as [|it its IH]; intros k st l Hl; [by left|].
  cbn [loop] in Hl. apply IH in Hl as [Hl | (j & it' & Hj & Hdec & Hl)].
  - apply step_provenance in Hl as [Hl | [Hdec Hl]]; [by left|].
    right. exists 0%nat, it. rewrite Nat.add_0_r. done.
  - right. exists (S j), it'.
    replace (k + S j)%nat with (S k + j)%nat by lia. done.
Qed.

Lemma update_last_review_elem (hdr l : pystr) (ls : list pystr) :
  l ∈ update_last_review hdr ls → l = hdr ∨ l ∈ ls.
Proof.
  unfold update_last_review, list_insert_at. intros Hl.
  destruct ls as [|l0 rest];
    [|destruct (startswith LAST_REVIEW_PREFIX l0)];
    cbn in Hl; apply elem_of_cons in Hl as [-> | Hl]; auto.
  right. by right.
Qed.

(** X7. Every line of the output is the header line, a line of the
    downloaded document, or the note or the marker of a suggestion of the
    batch whose decision is ['insert']: the run writes nothing else. *)
Theorem output_lines_provenance (inp : inputs) (l : pystr) :
  l ∈ out_lines (main lower ratio inp) →
  l = last_line inp ∨
  l ∈ splitlines (content inp) ∨
  ∃ k it,
    items inp !! k = Some it ∧
    rec_decision (record_of lower ratio (threshold inp) it) = insert_ ∧
    (l = human_note (extract_title (suggested_text it)) ∨
     l = machine_comment inp k (original it)
           (extract_title (suggested_text it))).
Proof.
  unfold main. cbn [out_lines].
  set (lines := splitlines (content inp)).
  set (st := loop lower ratio inp lines 0 (items inp) (init lines)).
  intros [-> | Hin]%update_last_review_elem; [by left|].
  right. apply loop_provenance in Hin as [Hin | Hin]; [by left | by right].
Qed.

(** *** Where an insertion goes *)

Lemma reachable_inv inp pre :
  loop_inv (splitlines (content inp))
    (loop lower ratio inp (splitlines (content inp)) 0 pre
       (init (splitlines (content inp)))).
Proof. apply loop_inv_preserved, init_inv. Qed.

(** X10. At every turn of the loop the insertion point of a suggestion with a
    best line is inside the array and after its first line: [list.insert]
    never falls back to appending, and the first line of the document
    stays the first line of the array. *)
Theorem insertion_in_range (inp : inputs) (pre : list suggestion)
    (it : suggestion) (bi : nat) (s : Q) :
  let lines := splitlines (content inp) in
  let st := loop lower ratio inp lines 0 pre (init lines) in
  let idx := (bi + 1 + offset st)%nat in
  best_match lower ratio (original it) lines = (Some bi, s) →
  (1 ≤ idx ≤ length (new_lines st))%nat ∧
  head (new_lines st) = head lines ∧
  head (new_lines (step lower ratio inp lines (length pre) it st))
    = head lines.
Proof.
  intros lines st idx Hbest.
  pose proof (reachable_inv inp pre) as Hinv. fold lines st in Hinv.
  pose proof (step_inv lower ratio inp lines (length pre) it st Hinv)
    as (_ & _ & Hhd' & _).
  destruct Hinv as (Hlen & _ & Hhd & _).
  apply best_match_lt_length in Hbest. unfold idx.
  split_and!; try done; lia.
Qed.

Lemma step_tail_inv inp lines k it st w :
  loop_inv lines st → tail_inv lines w st →
  (∀ b s, best_match lower ratio (original it) lines = (Some b, s) →
          (b ≤ w)%nat) →
  tail_inv lines w (step lower ratio inp lines k it st).
Proof.
  intros (Hlen & _) Htail Hle.
  destruct (step_cases lower ratio inp lines k it st)
    as [-> | (bi & s & _ & Hbest & _ & _ & ->)]; [done|].
  pose proof (Hle _ _ Hbest) as Hbw.
  apply best_match_lt_length in Hbest.
  intros b Hb. cbn [new_lines offset].
  assert (length (take (bi + 1 + offset st) (new_lines st))
          = (bi + 1 + offset st)%nat) as Htake
    by (rewrite length_take; lia).
  rewrite drop_app_ge by lia. rewrite Htake.
  replace (b + 1 + (offset st + 2) - (bi + 1 + offset st))%nat
    with (S (S (b - bi))) by lia.
  cbn [drop]. rewrite drop_drop.
  replace (bi + 1 + offset st + (b - bi))%nat
    with (b + 1 + offset st)%nat by lia.
  by apply Htail.
Qed.

Lemma loop_tail_inv inp lines w its : ∀ k st,
  loop_inv lines st → tail_inv lines w st →
  (∀ it b s, it ∈ its →
             best_match lower ratio (original it) lines = (Some b, s) →
             (b ≤ w)%nat) →
  tail_inv lines w (loop lower ratio inp lines k its st).
Proof.
  induction its as [|it its IH]; intros k st Hinv Htail Hle; [done|].
  cbn [loop]. apply IH.
  - by apply step_inv.
  - apply step_tail_inv; [done | done |]. intros b s. apply Hle. by left.
  - intros it' b s Hin. apply Hle. by right.
Qed.

(** X11. When no earlier suggestion of the batch has its best line further
    down than the line [bi], what follows the insertion point is the rest
    of the document after the line [bi], untouched; an insertion then puts
    the note and the marker right before that rest.  (The offset counts
    every earlier insertion, also one made further down.) *)
Theorem in_order_insertion (inp : inputs) (pre : list suggestion)
    (it : suggestion) (bi : nat) (s : Q) :
  let lines := splitlines (content inp) in
  let st := loop lower ratio inp lines 0 pre (init lines) in
  let idx := (bi + 1 + offset st)%nat in
  let st' := step lower ratio inp lines (length pre) it st in
  let title := extract_title (suggested_text it) in
  (∀ it' b s', it' ∈ pre →
     best_match lower ratio (original it') lines = (Some b, s') →
     (b ≤ bi)%nat) →
  best_match lower ratio (original it) lines = (Some bi, s) →
  drop idx (new_lines st) = drop (bi + 1) lines ∧
  (inserted st' ≠ inserted st →
   new_lines st' =
     take idx (new_lines st) ++
     human_note title ::
     machine_comment inp (length pre) (original it) title ::
     drop (bi + 1) lines).
Proof.
  intros lines st idx st' title Hpre Hbest.
  assert (tail_inv lines bi st) as Htail.
  { apply loop_tail_inv; [apply init_inv | | done].
    intros b _. cbn [init offset new_lines]. f_equal. lia. }
  assert (drop idx (new_lines st) = drop (bi + 1) lines) as Hdrop
    by (by apply Htail).
  split; [done|]. intros Hins. unfold st' in *.
  destruct (step_cases lower ratio inp lines (length pre) it st)
    as [Hst | (bi' & s' & _ & Hbest' & _ & _ & Hst)]; rewrite Hst in Hins |- *.
  - done.
  - rewrite Hbest in Hbest'. injection Hbest' as <- <-.
    cbn [new_lines]. fold idx title. by rewrite Hdrop.
Qed.

(** *** Titles that are never inserted, and notes that block *)

Lemma no_empty_verb : [] ∉ ACTION_VERBS.
Proof. apply (bool_decide_unpack _). vm_compute. reflexivity. Qed.

(** X12. A title that normalizes to the empty string (no letter and no digit in
    it, or no title at all) is not actionable: its suggestion is never
    inserted, and its turn changes nothing but the records. *)
Theorem blank_title_never_inserted (inp : inputs) (lines : list pystr)
    (k : nat) (it : suggestion) (st : state) :
  normalize lower (Some (extract_title (suggested_text it))) = [] →
  is_actionable lower (extract_title (suggested_text it)) = false ∧
  rec_decision (record_of lower ratio (threshold inp) it) ≠ insert_ ∧
  step lower ratio inp lines k it st =
    State (new_lines st) (offset st) (inserted st)
          (records st ++ [record_of lower ratio (threshold inp) it]).
Proof.
  intros Hnorm.
  assert (is_actionable lower (extract_title (suggested_text it)) = false)
    as Hact.
  { destruct (is_actionable lower _) eqn:Ha; [|done].
    apply is_actionable_word in Ha as (v & Hv & Hin). rewrite Hnorm in Hin.
    cbn [split_on] in Hin. apply list_elem_of_singleton in Hin as ->.
    by apply no_empty_verb in Hv. }
  assert (rec_decision (record_of lower ratio (threshold inp) it) ≠ insert_)
    as Hdec.
  { unfold record_of. cbn [rec_decision]. rewrite Hact. unfold decide_.
    by destruct (Qle_bool _ _). }
  split_and!; [done | done |].
  destruct (step_cases lower ratio inp lines k it st)
    as [-> | (bi & s & Hins & _)]; done.
Qed.

(** X13. The guard looks for the trimmed note as a piece of text: a note in the
    window whose title only extends the title of the suggestion stops the
    insertion as well. *)
Theorem longer_title_blocks (inp : inputs) (lines : list pystr) (k : nat)
    (it : suggestion) (st : state) (bi : nat) (s : Q) (p : nat)
    (more : pystr) :
  let title := extract_title (suggested_text it) in
  let idx := (bi + 1 + offset st)%nat in
  let st' := step lower ratio inp lines k it st in
  best_match lower ratio (original it) lines = (Some bi, s) →
  (idx - 2 ≤ p < idx + 3)%nat →
  new_lines st !! p = Some (human_note (title ++ more)) →
  contains (strip (human_note title)) (human_note (title ++ more)) = true ∧
  new_lines st' = new_lines st ∧
  inserted st' = inserted st ∧
  offset st' = offset st.
Proof.
  intros title idx st' Hbest Hp Hline.
  assert (contains (strip (human_note title)) (human_note (title ++ more))
          = true) as Hc.
  { eapply contains_trans; [apply contains_strip|].
    apply contains_spec. exists [], more. unfold human_note.
    by rewrite <- !app_assoc. }
  split; [done|]. unfold st'.
  destruct (step_cases lower ratio inp lines k it st)
    as [-> | (bi' & s' & _ & Hbest' & _ & Hwin & _)]; [done|].
  rewrite Hbest in Hbest'. injection Hbest' as <- <-.
  fold title idx in Hwin. unfold already_there in Hwin.
  apply orb_false_iff in Hwin as [Hwin _].
  rewrite (contains_join _ _ (human_note (title ++ more))) in Hwin;
    [done | | done].
  apply elem_of_window. eauto.
Qed.

(** *** The header of a run and the next run *)

Lemma last_line_is_header (inp : inputs) :
  startswith LAST_REVIEW_PREFIX (last_line inp) = true.
Proof.
  apply startswith_spec. unfold last_line.
  exists (py " --> " ++ review_iso inp ++
          py "Z model=gpt-5-mini hash=" ++ generatedAtUtc inp).
  by rewrite app_assoc.
Qed.

(** X14. The header line of a run is a header for the next one: the header
    step applied to the output of a run overwrites its first line and adds
    no line. *)
Theorem header_is_replaced (inp next : inputs) :
  startswith LAST_REVIEW_PREFIX (last_line inp) = true ∧
  head (out_lines (main lower ratio inp)) = Some (last_line inp) ∧
  update_last_review (last_line next) (out_lines (main lower ratio inp)) =
    last_line next :: tail (out_lines (main lower ratio inp)) ∧
  length (update_last_review (last_line next)
            (out_lines (main lower ratio inp))) =
    length (out_lines (main lower ratio inp)).
Proof.
  pose proof (last_line_is_header inp) as Hhdr.
  assert (∃ body, out_lines (main lower ratio inp) = last_line inp :: body)
    as [body ->].
  { unfold main. cbn [out_lines]. unfold update_last_review, list_insert_at.
    destruct (new_lines _) as [|l0 rest]; [by eexists|].
    destruct (startswith LAST_REVIEW_PREFIX l0); by eexists. }
  split_and!; [done | done | |];
    unfold update_last_review; by rewrite Hhdr.
Qed.

(** *** One line per inserted line *)

Lemma no_control_app (a b : pystr) :
  no_control (a ++ b) = no_control a && no_control b.
Proof. apply forallb_app. Qed.

Lemma hex_digit_no_control (n : N) : (32 <=? Json.hex_digit n) = true.
Proof.
  apply N.leb_le. unfold Json.hex_digit. destruct (n <? 10); lia.
Qed.

Lemma escape_cp_no_control (c : N) : no_control (Json.escape_cp c) = true.
Proof.
  unfold Json.escape_cp.
  repeat (match goal with
          | |- context [if ?b then _ else _] => destruct b eqn:?
          end; [reflexivity|]).
  destruct (c <? 32) eqn:Hc.
  - rewrite no_control_app. apply andb_true_iff. split; [reflexivity|].
    unfold no_control. cbn [forallb]. by rewrite !hex_digit_no_control.
  - unfold no_control. cbn [forallb]. rewrite andb_true_r.
    apply N.leb_le. apply N.ltb_ge in Hc. done.
Qed.

Lemma dumps_str_no_control (s : pystr) : no_control (Json.dumps_str s) = true.
Proof.
  unfold Json.dumps_str. rewrite !no_control_app.
  apply andb_true_iff. split; [reflexivity|].
  apply andb_true_iff. split; [|reflexivity].
  induction s as [|c s IH]; [done|]. rewrite fmap_cons. cbn [concat].
  by rewrite no_control_app, escape_cp_no_control, IH.
Qed.

Lemma dumps_opt_str_no_control (s : option pystr) :
  no_control (Json.dumps_opt_str s) = true.
Proof. destruct s; [apply dumps_str_no_control | reflexivity]. Qed.

Lemma join_no_control (sep : pystr) (parts : list pystr) :
  no_control sep = true → Forall (λ p, no_control p = true) parts →
  no_control (join sep parts) = true.
Proof.
  intros Hsep. induction 1 as [|p ps Hp Hps IH]; [done|].
  destruct ps as [|q qs]; [done|].
  by rewrite join_cons_cons, !no_control_app, Hp, Hsep, IH.
Qed.

Lemma no_control_not_elem (s : pystr) (c : N) :
  no_control s = true → c < 32 → c ∉ s.
Proof.
  unfold no_control. intros Hs Hc Hin.
  rewrite forallb_forall in Hs. apply list_elem_of_In, Hs, N.leb_le in Hin. lia.
Qed.

Lemma machine_comment_no_control inp k orig title :
  no_control (machine_comment inp k orig title) = true.
Proof.
  unfold machine_comment, Json.dumps_dict. rewrite !no_control_app.
  rewrite join_no_control; [reflexivity | reflexivity |].
  unfold marker_obj. rewrite !fmap_cons.
  repeat (constructor;
          [unfold Json.dumps_member; cbn [fst snd];
           rewrite !no_control_app, !dumps_str_no_control,
             ?dumps_opt_str_no_control; reflexivity|]).
  constructor.
Qed.

Lemma human_note_no_LF (title : pystr) : LF ∉ title → LF ∉ human_note title.
Proof.
  intros Ht. unfold human_note. rewrite elem_of_app. intros [Hl | Hl]; [|done].
  revert Hl. apply (bool_decide_unpack _). vm_compute. reflexivity.
Qed.

(** X8. The marker holds no character below U+0020, whatever the title,
    the original line, the identifier, the time and the schema are: the
    encoder escapes them.  The title, and so the note, holds no line
    feed.  So an inserted line never breaks at a line feed. *)
Theorem inserted_lines_are_lines (inp : inputs) (k : nat)
    (orig : option pystr) (suggested : pystr) :
  no_control (machine_comment inp k orig (extract_title suggested)) = true ∧
  (LF ∉ machine_comment inp k orig (extract_title suggested)) ∧
  (CR ∉ machine_comment inp k orig (extract_title suggested)) ∧
  (LF ∉ extract_title suggested) ∧
  (LF ∉ human_note (extract_title suggested)).
Proof.
  pose proof (machine_comment_no_control inp k orig (extract_title suggested))
    as Hm.
  pose proof (hd_split_on_no_sep LF (strip_checkbox suggested)) as Ht.
  fold (extract_title suggested) in Ht.
  split_and!; [done | | | done |].
  - by apply no_control_not_elem.
  - by apply no_control_not_elem.
  - by apply human_note_no_LF.
Qed.

Lemma split_on_join_sep (sep : N) (parts : list pystr) :
  parts ≠ [] → Forall (λ p, sep ∉ p) parts →
  split_on sep (join [sep] parts ++ [sep]) = parts ++ [[]].
Proof.
  induction parts as [|p ps IH]; intros Hne Hall; [done|].
  apply Forall_cons in Hall as [Hp Hps]. destruct ps as [|q qs].
  - cbn [join app]. by rewrite split_on_app_sep.
  - rewrite join_cons_cons, <- !app_assoc. change ([sep] ++ ?x) with (sep :: x).
    rewrite split_on_app_sep by done. by rewrite IH.
Qed.

Lemma linebreak_free_no_LF (l : pystr) :
  Forall (λ c, is_linebreak c = false) l → LF ∉ l.
Proof.
  intros Hl Hin. rewrite Forall_forall in Hl. by apply Hl in Hin.
Qed.

(** X9. The text that is sent, split at its line feeds, is the output array
    (followed by an empty field when the text ends with a line feed),
    provided that the time and the hash of the header line hold no line
    feed: no line of the array spreads over two lines of the text. *)
Theorem sent_text_lines (inp : inputs) :
  LF ∉ review_iso inp → LF ∉ generatedAtUtc inp →
  Forall (λ l, LF ∉ l) (out_lines (main lower ratio inp)) ∧
  split_on LF (join [LF] (out_lines (main lower ratio inp)))
    = out_lines (main lower ratio inp) ∧
  split_on LF (new_content (main lower ratio inp))
    = out_lines (main lower ratio inp) ++
      (if endswith [LF] (content inp) then [[]] else []).
Proof.
  intros Hiso Hgen.
  assert (Forall (λ l, LF ∉ l) (out_lines (main lower ratio inp))) as Hall.
  { apply Forall_forall. intros l Hl. unfold main in Hl. cbn [out_lines] in Hl.
    apply update_last_review_elem in Hl as [-> | Hl];
      [|apply loop_provenance in Hl
          as [Hl | (k & it & _ & _ & [-> | ->])]].
    - unfold last_line. rewrite !elem_of_app.
      intros [Hl | [Hl | [Hl | Hl]]]; try done;
        revert Hl; apply (bool_decide_unpack _); vm_compute; reflexivity.
    - apply linebreak_free_no_LF.
      pose proof (splitlines_no_linebreak (content inp)) as Hs.
      rewrite Forall_forall in Hs. by apply Hs.
    - apply human_note_no_LF, hd_split_on_no_sep.
    - apply no_control_not_elem; [apply machine_comment_no_control | done]. }
  assert (out_lines (main lower ratio inp) ≠ []) as Hne.
  { unfold main. cbn [out_lines]. unfold update_last_review, list_insert_at.
    destruct (new_lines _) as [|l0 rest]; [done|].
    by destruct (startswith LAST_REVIEW_PREFIX l0). }
  split_and!; [done | by apply split_on_join |].
  unfold main at 1. cbn [new_content]. unfold serialize.
  fold (main lower ratio inp).
  change (Output _ _ _ _) with (main lower ratio inp).
  destruct (endswith [LF] (content inp)).
  - by apply split_on_join_sep.
  - rewrite !app_nil_r. by apply split_on_join.
Qed.

(** *** The text of a run that inserts nothing *)

(** X2. [splitlines] and the last line of [main] are inverse on a text whose
    only line boundary is the line feed. *)
Theorem serialize_splitlines (text : pystr) :
  (∀ c, c ∈ text → is_linebreak c = true → c = LF) →
  serialize text (splitlines text) = text.
Proof.
  intros Hlf. unfold serialize, splitlines.
  by rewrite join_splitlines_aux.
Qed.

Lemma sublist_same_length {A} (l1 l2 : list A) :
  sublist l1 l2 → (length l2 ≤ length l1)%nat → l1 = l2.
Proof.
  induction 1 as [|x l1 l2 Hs IH|x l1 l2 Hs IH]; intros Hlen; [done | |].
  - f_equal. apply IH. simpl in Hlen. lia.
  - apply sublist_length in Hs. simpl in Hlen. lia.
Qed.

(** X3. A run that counts no insertion changes the text by its header line
    only: for a text that is not empty, breaks its lines at line feeds
    only and does not start with an old header, the text that is sent is
    the header line, a line feed, and the downloaded text. *)
Theorem no_insertion_keeps_text (inp : inputs) :
  out_inserted (main lower ratio inp) = 0%nat →
  (∀ c, c ∈ content inp → is_linebreak c = true → c = LF) →
  content inp ≠ [] →
  startswith LAST_REVIEW_PREFIX (content inp) = false →
  out_lines (main lower ratio inp)
    = last_line inp :: splitlines (content inp) ∧
  new_content (main lower ratio inp)
    = last_line inp ++ [LF] ++ content inp.
Proof.
  intros Hins Hlf Hne Hold.
  destruct (main_loop_inv lower ratio inp) as (Hlen & Hoff & _ & Hsub & _).
  unfold main in *. cbn [out_lines new_content out_inserted] in *.
  set (lines := splitlines (content inp)) in *.
  set (st := loop lower ratio inp lines 0 (items inp) (init lines)) in *.
  assert (new_lines st = lines) as ->
    by (symmetry; apply sublist_same_length; [done | lia]).
  pose proof (join_splitlines_aux (content inp) [] Hlf) as Hround.
  fold (splitlines (content inp)) in Hround. fold lines in Hround.
  fold (serialize (content inp) lines) in Hround.
  change (reverse [] ++ content inp) with (content inp) in Hround.
  assert (lines ≠ []) as Hlines
    by (apply splitlines_aux_nonempty; by right).
  destruct lines as [|l0 rest] eqn:Hl; [done|].
  assert (startswith LAST_REVIEW_PREFIX l0 = false) as Hl0.
  { destruct (startswith LAST_REVIEW_PREFIX l0) eqn:Hs; [|done].
    apply startswith_spec in Hs as [r ->].
    assert (startswith LAST_REVIEW_PREFIX (content inp) = true);
      [|congruence].
    apply startswith_spec. rewrite <- Hround. unfold serialize.
    destruct rest as [|q qs]; cbn [join];
      rewrite <- ?app_assoc; by eexists. }
  unfold update_last_review. rewrite Hl0.
  unfold list_insert_at. cbn [take drop app].
  split; [done|]. unfold serialize in *.
  rewrite join_cons_cons, <- !app_assoc. by rewrite Hround.
Qed.

(** *** The title of a suggestion *)

Lemma lstrip_spaces (ws t : pystr) :
  Forall (λ c, is_space c = true) ws →
  match t with [] => True | c :: _ => is_space c = false end →
  lstrip (ws ++ t) = t.
Proof.
  intros Hws Ht. induction Hws as [|c ws Hc _ IH].
  - destruct t as [|c t]; [done|]. simpl. by rewrite Ht.
  - simpl. by rewrite Hc.
Qed.

(** X1. The title is the first line of the text after the check box and the
    whitespace that follows it: it holds no line feed; a text without the
    check box gives its own first line; and the title comes back out of
    ["- [ ]"], any whitespace, the title and the rest of the text. *)
Theorem extract_title_first_line (ws title rest suggested : pystr) :
  Forall (λ c, is_space c = true) ws →
  LF ∉ title →
  match title with [] => False | c :: _ => is_space c = false end →
  (LF ∉ extract_title suggested) ∧
  extract_title (py "- [ ]" ++ ws ++ title) = title ∧
  extract_title (py "- [ ]" ++ ws ++ title ++ LF :: rest) = title ∧
  (startswith (py "- [ ]") (title ++ LF :: rest) = false →
   extract_title (title ++ LF :: rest) = title).
Proof.
  intros Hws Hlf Hhd.
  assert (match title with [] => True | c :: _ => is_space c = false end)
    as Hhd' by (by destruct title).
  assert (match title ++ LF :: rest with
          | [] => True | c :: _ => is_space c = false end)
    as Hhd'' by (by destruct title).
  split_and!.
  - apply hd_split_on_no_sep.
  - unfold extract_title, strip_checkbox.
    change (startswith (py "- [ ]") (py "- [ ]" ++ ws ++ title)) with true.
    cbn iota. change (drop 5 (py "- [ ]" ++ ws ++ title)) with (ws ++ title).
    rewrite lstrip_spaces by done. by rewrite split_on_no_sep.
  - unfold extract_title, strip_checkbox.
    change (startswith (py "- [ ]") (py "- [ ]" ++ ws ++ title ++ LF :: rest))
      with true.
    cbn iota.
    change (drop 5 (py "- [ ]" ++ ws ++ title ++ LF :: rest))
      with (ws ++ title ++ LF :: rest).
    rewrite lstrip_spaces by done. by rewrite split_on_app_sep.
  - intros Hno. unfold extract_title, strip_checkbox. rewrite Hno.
    by rewrite split_on_app_sep.
Qed.

End MoreFacts.

(** ** The further facts on concrete runs *)

Lemma empty_document_witness :
  content Cases.empty_run = [] ∧
  new_content (main ascii_lower Difflib.ratio Cases.empty_run)
    = last_line Cases.empty_run ∧
  out_inserted (main ascii_lower Difflib.ratio Cases.empty_run) = 0%nat ∧
  length (out_records (main ascii_lower Difflib.ratio Cases.empty_run))
    = 3%nat.
Proof.
  split; [reflexivity|].
  destruct (empty_document ascii_lower Difflib.ratio Cases.empty_run eq_refl)
    as (_ & Hc & Hi & Hr).
  split; [exact Hc|]. split; [exact Hi | exact Hr].
Defined.

(** The line 4 of the output of the first run is the note of the second
    suggestion of the batch. *)
Lemma output_lines_provenance_witness :
  out_lines (main ascii_lower Difflib.ratio Demo.first_run) !! 4%nat
    = Some (human_note (py "Create retro action plan")) ∧
  (human_note (py "Create retro action plan") = last_line Demo.first_run ∨
   human_note (py "Create retro action plan")
     ∈ splitlines (content Demo.first_run) ∨
   ∃ k it,
     items Demo.first_run !! k = Some it ∧
     rec_decision (record_of ascii_lower Difflib.ratio
                     (threshold Demo.first_run) it) = insert_ ∧
     (human_note (py "Create retro action plan")
        = human_note (extract_title (suggested_text it)) ∨
      human_note (py "Create retro action plan")
        = machine_comment Demo.first_run k (original it)
            (extract_title (suggested_text it)))).
Proof.
  assert (out_lines (main ascii_lower Difflib.ratio Demo.first_run) !! 4%nat
          = Some (human_note (py "Create retro action plan"))) as Hl
    by (vm_compute; reflexivity).
  split; [exact Hl|].
  apply (output_lines_provenance ascii_lower Difflib.ratio Demo.first_run).
  apply list_elem_of_lookup. exists 4%nat. exact Hl.
Defined.

Lemma insertion_in_range_witness :
  let lines := splitlines (content Demo.first_run) in
  let st := loop ascii_lower Difflib.ratio Demo.first_run lines 0
              [Demo.buy_milk; Demo.retro] (init lines) in
  best_match ascii_lower Difflib.ratio (original Demo.budget) lines
    = (Some 5%nat, (46 # 46)%Q) ∧
  (1 ≤ 5 + 1 + offset st ≤ length (new_lines st))%nat.
Proof.
  intros lines st.
  assert (best_match ascii_lower Difflib.ratio (original Demo.budget) lines
          = (Some 5%nat, (46 # 46)%Q)) as Hbest by (vm_compute; reflexivity).
  split; [exact Hbest|].
  exact (proj1 (insertion_in_range ascii_lower Difflib.ratio Demo.first_run
                  [Demo.buy_milk; Demo.retro] Demo.budget 5 (46 # 46)%Q
                  Hbest)).
Defined.

(** The batch of the first run is in the order of the document: the third
    suggestion is inserted right before the last line of the document. *)
Lemma in_order_insertion_witness :
  let lines := splitlines (content Demo.first_run) in
  let st := loop ascii_lower Difflib.ratio Demo.first_run lines 0
              [Demo.buy_milk; Demo.retro] (init lines) in
  drop (5 + 1 + offset st) (new_lines st) = drop (5 + 1) lines ∧
  drop (5 + 1) lines = [py "- [ ] Fix bike"].
Proof.
  intros lines st.
  split; [|vm_compute; reflexivity].
  refine (proj1 (in_order_insertion ascii_lower Difflib.ratio Demo.first_run
                   [Demo.buy_milk; Demo.retro] Demo.budget 5 (46 # 46)%Q
                   _ _)).
  - intros it' b s' Hin Hbest.
    apply elem_of_cons in Hin as [-> | Hin].
    + vm_compute in Hbest. injection Hbest as <- _. lia.
    + apply list_elem_of_singleton in Hin as ->.
      vm_compute in Hbest. injection Hbest as <- _. lia.
  - vm_compute. reflexivity.
Defined.

Lemma blank_title_never_inserted_witness :
  normalize ascii_lower
    (Some (extract_title (suggested_text Cases.blank))) = [] ∧
  rec_decision (record_of ascii_lower Difflib.ratio
                  (threshold Demo.first_run) Cases.blank) ≠ insert_.
Proof.
  assert (normalize ascii_lower
            (Some (extract_title (suggested_text Cases.blank))) = [])
    as Hn by (vm_compute; reflexivity).
  split; [exact Hn|].
  exact (proj1 (proj2 (blank_title_never_inserted ascii_lower Difflib.ratio
                         Demo.first_run [] 0 Cases.blank (init []) Hn))).
Defined.

(** The text holds the note "Create retro action plan for Q3" under the
    matched line: the suggestion "Create retro action plan" is not
    inserted. *)
Lemma longer_title_blocks_witness :
  let lines := splitlines (content Cases.noted_run) in
  let st' := step ascii_lower Difflib.ratio Cases.noted_run lines 1
               Demo.retro (init lines) in
  rec_decision (record_of ascii_lower Difflib.ratio
                  (threshold Cases.noted_run) Demo.retro) = insert_ ∧
  new_lines st' = new_lines (init lines) ∧
  inserted st' = inserted (init lines).
Proof.
  intros lines st'.
  split; [vm_compute; reflexivity|].
  destruct (longer_title_blocks ascii_lower Difflib.ratio Cases.noted_run
              lines 1 Demo.retro (init lines) 1 (36 # 36)%Q 2
              (py " for Q3"))
    as (_ & Hnew & Hins & _).
  - vm_compute. reflexivity.
  - vm_compute. lia.
  - vm_compute. reflexivity.
  - split; [exact Hnew | exact Hins].
Defined.

Lemma sent_text_lines_witness :
  (LF ∉ review_iso Demo.first_run) ∧ (LF ∉ generatedAtUtc Demo.first_run) ∧
  split_on LF (new_content (main ascii_lower Difflib.ratio Demo.first_run))
    = out_lines (main ascii_lower Difflib.ratio Demo.first_run) ++
      (if endswith [LF] (content Demo.first_run) then [[]] else []).
Proof.
  assert (LF ∉ review_iso Demo.first_run) as H1
    by (apply not_elem_check; vm_compute; reflexivity).
  assert (LF ∉ generatedAtUtc Demo.first_run) as H2
    by (apply not_elem_check; vm_compute; reflexivity).
  split; [exact H1|]. split; [exact H2|].
  exact (proj2 (proj2 (sent_text_lines ascii_lower Difflib.ratio
                         Demo.first_run H1 H2))).
Defined.

Lemma serialize_splitlines_witness :
  (∀ c, c ∈ Demo.document → is_linebreak c = true → c = LF) ∧
  serialize Demo.document (splitlines Demo.document) = Demo.document.
Proof.
  assert (∀ c, c ∈ Demo.document → is_linebreak c = true → c = LF) as Hlf
    by (apply lf_only_check; vm_compute; reflexivity).
  split; [exact Hlf|]. exact (serialize_splitlines Demo.document Hlf).
Defined.

(** A run whose only suggestion is skipped sends the header line, a line
    feed, and the text as it was. *)
Lemma no_insertion_keeps_text_witness :
  out_inserted (main ascii_lower Difflib.ratio Cases.quiet_run) = 0%nat ∧
  new_content (main ascii_lower Difflib.ratio Cases.quiet_run)
    = last_line Cases.quiet_run ++ [LF] ++ content Cases.quiet_run.
Proof.
  assert (out_inserted (main ascii_lower Difflib.ratio Cases.quiet_run)
          = 0%nat) as Hins by (vm_compute; reflexivity).
  split; [exact Hins|].
  refine (proj2 (no_insertion_keeps_text ascii_lower Difflib.ratio
                   Cases.quiet_run Hins _ _ _)).
  - apply lf_only_check. vm_compute. reflexivity.
  - discriminate.
  - vm_compute. reflexivity.
Defined.

Lemma extract_title_first_line_witness :
  extract_title (py "- [ ]" ++ [SPACE; LF; SPACE] ++ py "Create plan"
                   ++ LF :: py "more text")
    = py "Create plan" ∧
  extract_title (py "Create plan" ++ LF :: py "more text")
    = py "Create plan".
Proof.
  destruct (extract_title_first_line [SPACE; LF; SPACE] (py "Create plan")
              (py "more text") [])
    as (_ & _ & H1 & H2).
  - apply all_space_check. vm_compute. reflexivity.
  - apply not_elem_check. vm_compute. reflexivity.
  - vm_compute. reflexivity.
  - split; [exact H1|]. apply H2. vm_compute. reflexivity.
Defined.

(** A batch against the order of the document: the second suggestion, for
    the line 4, goes to the index 4 + 1 + 2 = 7, between the note and the
    marker that the first one put after the line 5. *)
Example out_of_order_interleaves :
  let inp := Inputs None None [] [Demo.budget;
               Suggestion (Some (py "Water plants"))
                          (py "- [ ] Schedule watering")]
               Demo.document Demo.uuid Demo.clock [] in
  let st := loop ascii_lower Difflib.ratio inp (splitlines (content inp)) 0
              (items inp) (init (splitlines (content inp))) in
  take 5 (drop 5 (new_lines st)) =
    [py "- [ ] Quarterly budget review";
     human_note (py "Schedule meeting with finance");
     human_note (py "Schedule watering");
     machine_comment inp 1 (Some (py "Water plants")) (py "Schedule watering");
     machine_comment inp 0 (original Demo.budget)
       (py "Schedule meeting with finance")].
Proof. vm_compute. reflexivity. Qed.

(** ** The end of the text on concrete runs *)

(** A text without a final line feed is sent without one, in a run that
    makes two insertions. *)
Lemma trailing_newline_kept_witness :
  endswith [LF] (content Cases.unterminated_run) = false ∧
  out_inserted (main ascii_lower Difflib.ratio Cases.unterminated_run)
    = 2%nat ∧
  endswith [LF]
    (new_content (main ascii_lower Difflib.ratio Cases.unterminated_run))
    = endswith [LF] (content Cases.unterminated_run).
Proof.
  split; [vm_compute; reflexivity|]. split; [vm_compute; reflexivity|].
  refine (proj2 (trailing_newline_kept ascii_lower Difflib.ratio
                   Cases.unterminated_run _ _)).
  - intros c Hc Hlb. vm_compute in Hc. injection Hc as <-.
    vm_compute in Hlb. discriminate Hlb.
  - vm_compute. discriminate.
Defined.

(** The texts "\r" and "a\n\r" do not end with a line feed; their last
    line is the empty string, and the text that is sent ends with the line
    feed that joins it to the line before. *)
Lemma trailing_newline_counterexample :
  (endswith [LF] (content Cases.cr_run) = false ∧
   endswith [LF] (new_content (main ascii_lower Difflib.ratio Cases.cr_run))
     = true) ∧
  (endswith [LF] (content Cases.lf_cr_run) = false ∧
   endswith [LF]
     (new_content (main ascii_lower Difflib.ratio Cases.lf_cr_run)) = true).
Proof. vm_compute. repeat split. Qed.
